(** * WordPress module generator: normalisation, field parsing, key generation

    A shallow embedding of [generator.py]: the normaliser ([slugify],
    [to_snake_case], [to_label]), the field type registry
    ([SUPPORTED_TYPES]), the field parser ([parse_field]), the key
    generators ([generate_field_key], [generate_group_key]), the schema
    builder ([build_acf_field], [build_acf_json]), the generator
    ([generate] and its seven steps) and the commands ([module],
    [list_types]).

    Conventions.
    - A Python [str] is a list of Unicode code points, each a [Z].
    - [bytes] are lists of [Z] in [0, 256).
    - A Python [dict] is an association list in insertion order.
    - A call runs in a process ([Run]) and either returns or raises
      ([result]); this is the reader/exception monad [Py].
    - The generator and the commands are programs ([Prog]) over calls to
      the file system, the template engine and the console. *)

From Stdlib Require Import ZArith List Bool Lia String Ascii.
Import ListNotations.
Open Scope Z_scope.

(* ================================================================== *)
(** ** Python strings *)

(** Code points range over 0 .. 0x10FFFF; the definitions below are total
    on [Z] and no statement needs the bound. *)
Definition str := list Z.

(** An ASCII literal of the source, as code points. *)
Fixpoint lit (s : string) : str :=
  match s with
  | EmptyString => []
  | String a rest => Z.of_N (N_of_ascii a) :: lit rest
  end.

Definition hyphen : Z := 45.      (* '-' *)
Definition underscore : Z := 95.  (* '_' *)
Definition colon : Z := 58.       (* ':' *)

Fixpoint str_eqb (a b : str) : bool :=
  match a, b with
  | [], [] => true
  | x :: a', y :: b' => (x =? y) && str_eqb a' b'
  | _, _ => false
  end.

(** [c in chars] for a one-character [c]. *)
Definition char_in (chars : list Z) (c : Z) : bool :=
  existsb (Z.eqb c) chars.

(** [text.replace(old, new)] for a one-character [old]. *)
Definition str_replace (old : Z) (new : str) (text : str) : str :=
  flat_map (fun c => if c =? old then new else [c]) text.

(** [text.lstrip(chars)], [text.rstrip(chars)] and [text.strip(chars)]. *)
Fixpoint str_lstrip (chars : list Z) (text : str) : str :=
  match text with
  | [] => []
  | c :: rest => if char_in chars c then str_lstrip chars rest else text
  end.

Fixpoint str_rstrip (chars : list Z) (text : str) : str :=
  match text with
  | [] => []
  | c :: rest =>
      match str_rstrip chars rest with
      | [] => if char_in chars c then [] else [c]
      | kept => c :: kept
      end
  end.

Definition str_strip (chars : list Z) (text : str) : str :=
  str_rstrip chars (str_lstrip chars text).

(** [sep.join(parts)]. *)
Fixpoint str_join (sep : str) (parts : list str) : str :=
  match parts with
  | [] => []
  | [p] => p
  | p :: rest => p ++ sep ++ str_join sep rest
  end.

(** [text.split(sep, 1)] for a one-character [sep], when [sep in text]:
    the part before the first separator and everything after it.  [None]
    when the separator does not occur. *)
Fixpoint split_once (sep : Z) (text : str) : option (str * str) :=
  match text with
  | [] => None
  | c :: rest =>
      if c =? sep then Some ([], rest)
      else match split_once sep rest with
           | Some (before, after) => Some (c :: before, after)
           | None => None
           end
  end.

(* ================================================================== *)
(** ** Regular expressions of the source

    Only two shapes occur: a character class replaced character by
    character, and a negated class under [+] whose every maximal run is
    replaced. *)

(** [re.sub(r'[cls]', repl, text)]. *)
Definition re_sub_class (cls : list Z) (repl : str) (text : str) : str :=
  flat_map (fun c => if char_in cls c then repl else [c]) text.

(** [re.sub(r'[cls]+', repl, text)] for a class given as a predicate: the
    scan emits [repl] when it enters a run of matching characters and
    nothing for the rest of the run. *)
Fixpoint re_sub_runs (cls : Z -> bool) (repl : str) (in_run : bool)
                     (text : str) : str :=
  match text with
  | [] => []
  | c :: rest =>
      if cls c
      then (if in_run then [] else repl) ++ re_sub_runs cls repl true rest
      else c :: re_sub_runs cls repl false rest
  end.

(** The class [a-z0-9]. *)
Definition az09 (c : Z) : bool :=
  ((97 <=? c) && (c <=? 122)) || ((48 <=? c) && (c <=? 57)).

(** The class [^a-z0-9]. *)
Definition not_az09 (c : Z) : bool := negb (az09 c).

(* ================================================================== *)
(** ** Case mapping

    [str.lower] and [str.title] are functions of the interpreter's Unicode
    character database.  The normaliser is written against that interface,
    and every general statement below holds for any [CaseMapping].

    [latin1_case] is not the whole database.  [Latin1.lower] and
    [Latin1.title] are [str.lower] and [str.title] on the texts whose code
    points are all below U+0100, and on those only: above U+00FF the
    tables know three lower-case mappings and take every other code point
    for uncased and unchanged, which the interpreter does not (U+0153 is
    cased, so [str.title] lower-cases the letter after it, where
    [Latin1.title] title-cases it).  The instance serves the examples,
    whose texts are ASCII or Latin-1. *)

Class CaseMapping := {
  str_lower : str -> str;
  str_title : str -> str
}.

Module Latin1.

(** Lower-case mapping of one code point.  Besides A-Z and the Latin-1
    capitals it lists the three code points above U+00FF whose lower case
    falls back into ASCII or Latin-1. *)
Definition lower_cp (c : Z) : str :=
  if (65 <=? c) && (c <=? 90) then [c + 32]
  else if (192 <=? c) && (c <=? 222) && negb (c =? 215) then [c + 32]
  else if c =? 304 then [105; 775]     (* U+0130 *)
  else if c =? 8490 then [107]         (* U+212A, Kelvin sign *)
  else if c =? 8491 then [229]         (* U+212B, Angstrom sign *)
  else [c].

(** Title-case mapping of one code point, for the code points below
    U+0100. *)
Definition title_cp (c : Z) : str :=
  if (97 <=? c) && (c <=? 122) then [c - 32]
  else if c =? 181 then [924]          (* micro sign *)
  else if c =? 223 then [83; 115]      (* sharp s *)
  else if (224 <=? c) && (c <=? 254) && negb (c =? 247) then [c - 32]
  else if c =? 255 then [376]
  else [c].

(** The Cased property, for the code points below U+0100; every code
    point above is answered [false]. *)
Definition is_cased (c : Z) : bool :=
  ((65 <=? c) && (c <=? 90)) || ((97 <=? c) && (c <=? 122))
  || (c =? 170) || (c =? 181) || (c =? 186)
  || ((192 <=? c) && (c <=? 255) && negb (c =? 215) && negb (c =? 247)).

Definition lower (text : str) : str := flat_map lower_cp text.

(** [str.title]: a character that follows a cased one is lower-cased,
    any other is title-cased. *)
Fixpoint title_from (previous_is_cased : bool) (text : str) : str :=
  match text with
  | [] => []
  | c :: rest =>
      (if previous_is_cased then lower_cp c else title_cp c)
      ++ title_from (is_cased c) rest
  end.

Definition title (text : str) : str := title_from false text.

End Latin1.

(** The case mapping of the examples: exact below U+0100 only. *)
Definition latin1_case : CaseMapping :=
  {| str_lower := Latin1.lower; str_title := Latin1.title |}.

(* ================================================================== *)
(** ** Normaliser *)

Section Normalizer.
Context {cm : CaseMapping}.

(** The accent folds of [slugify], in source order. *)
Definition fold_accents (text : str) : str :=
  let text := re_sub_class [224; 225; 226; 227; 228; 229] (lit "a") text in
  let text := re_sub_class [232; 233; 234; 235] (lit "e") text in
  let text := re_sub_class [236; 237; 238; 239] (lit "i") text in
  let text := re_sub_class [242; 243; 244; 245; 246] (lit "o") text in
  let text := re_sub_class [249; 250; 251; 252] (lit "u") text in
  let text := re_sub_class [231] (lit "c") text in
  text.

Definition slugify (text : str) : str :=
  let text := str_lower text in
  let text := fold_accents text in
  let text := re_sub_runs not_az09 (lit "-") false text in
  let text := str_strip [hyphen] text in
  text.

Definition to_snake_case (text : str) : str :=
  let text := slugify text in
  str_replace hyphen (lit "_") text.

Definition to_label (text : str) : str :=
  str_title (str_replace underscore (lit " ")
               (str_replace hyphen (lit " ") text)).

End Normalizer.

#[export] Existing Instance latin1_case.


(* ================================================================== *)
(** ** Exceptions and the [Py] monad *)

Inductive exception :=
| BadParameter (message : str)        (* click.BadParameter *)
| KeyError (key : str)
| UnicodeEncodeError (code_point : Z).

Inductive result (A : Type) :=
| Ok (value : A)
| Raise (e : exception).

Arguments Ok {A} value.
Arguments Raise {A} e.

(** What a process brings with it and the source could read: the wall
    clock, as the integer part of [datetime.now().timestamp()], and the
    interpreter's per-process hash seed. *)
Record Run := {
  unix_time : Z;
  hash_seed : Z
}.

Definition Py (A : Type) : Type := Run -> result A.

Definition ret {A} (a : A) : Py A := fun _ => Ok a.

Definition raise {A} (e : exception) : Py A := fun _ => Raise e.

Definition bind {A B} (m : Py A) (k : A -> Py B) : Py B :=
  fun run => match m run with
             | Ok a => k a run
             | Raise e => Raise e
             end.

Notation "x <- m ;; k" := (bind m (fun x => k))
  (at level 61, m at next level, right associativity).

(** [int(datetime.now().timestamp())]. *)
Definition now_timestamp : Py Z := fun run => Ok (unix_time run).

(** A list comprehension whose body may raise: left to right, stopping at
    the first exception. *)
Fixpoint for_each {A B} (body : A -> Py B) (items : list A) : Py (list B) :=
  match items with
  | [] => ret []
  | x :: rest =>
      y <- body x ;;
      ys <- for_each body rest ;;
      ret (y :: ys)
  end.

(** [enumerate(items)], counting from [start]. *)
Fixpoint enumerate_from {A} (start : Z) (items : list A) : list (Z * A) :=
  match items with
  | [] => []
  | x :: rest => (start, x) :: enumerate_from (start + 1) rest
  end.

(* ================================================================== *)
(** ** [str.encode()]: UTF-8, strict *)

Definition bytes := list Z.

Definition is_surrogate (c : Z) : bool := (55296 <=? c) && (c <=? 57343).

Definition utf8_cp (c : Z) : result bytes :=
  if c <? 128 then Ok [c]
  else if c <? 2048 then Ok [192 + c / 64; 128 + c mod 64]
  else if is_surrogate c then Raise (UnicodeEncodeError c)
  else if c <? 65536 then
    Ok [224 + c / 4096; 128 + (c / 64) mod 64; 128 + c mod 64]
  else
    Ok [240 + c / 262144; 128 + (c / 4096) mod 64;
        128 + (c / 64) mod 64; 128 + c mod 64].

Fixpoint str_encode (text : str) : result bytes :=
  match text with
  | [] => Ok []
  | c :: rest =>
      match utf8_cp c with
      | Raise e => Raise e
      | Ok bs => match str_encode rest with
                 | Raise e => Raise e
                 | Ok more => Ok (bs ++ more)
                 end
      end
  end.

(* ================================================================== *)
(** ** [hashlib.md5] (RFC 1321) *)

Module MD5.

Definition w32 (x : Z) : Z := x mod 4294967296.

Definition not32 (x : Z) : Z := Z.lxor x 4294967295.

Definition rotl32 (x c : Z) : Z :=
  w32 (Z.lor (Z.shiftl x c) (Z.shiftr x (32 - c))).

Definition shifts : list Z :=
  [7; 12; 17; 22; 7; 12; 17; 22; 7; 12; 17; 22; 7; 12; 17; 22;
   5; 9; 14; 20; 5; 9; 14; 20; 5; 9; 14; 20; 5; 9; 14; 20;
   4; 11; 16; 23; 4; 11; 16; 23; 4; 11; 16; 23; 4; 11; 16; 23;
   6; 10; 15; 21; 6; 10; 15; 21; 6; 10; 15; 21; 6; 10; 15; 21].

(** [floor (2^32 * abs (sin (i + 1)))] for [i] in [0, 64). *)
Definition sines : list Z :=
  [3614090360; 3905402710; 606105819; 3250441966;
   4118548399; 1200080426; 2821735955; 4249261313;
   1770035416; 2336552879; 4294925233; 2304563134;
   1804603682; 4254626195; 2792965006; 1236535329;
   4129170786; 3225465664; 643717713; 3921069994;
   3593408605; 38016083; 3634488961; 3889429448;
   568446438; 3275163606; 4107603335; 1163531501;
   2850285829; 4243563512; 1735328473; 2368359562;
   4294588738; 2272392833; 1839030562; 4259657740;
   2763975236; 1272893353; 4139469664; 3200236656;
   681279174; 3936430074; 3572445317; 76029189;
   3654602809; 3873151461; 530742520; 3299628645;
   4096336452; 1126891415; 2878612391; 4237533241;
   1700485571; 2399980690; 4293915773; 2240044497;
   1873313359; 4264355552; 2734768916; 1309151649;
   4149444226; 3174756917; 718787259; 3951481745].

Record state := { sa : Z; sb : Z; sc : Z; sd : Z }.

Definition init : state :=
  {| sa := 1732584193; sb := 4023233417; sc := 2562383102; sd := 271733878 |}.

(** Little-endian bytes of a 32-bit word, and back. *)
Definition le32 (w : Z) : bytes :=
  [w mod 256; (w / 256) mod 256; (w / 65536) mod 256; (w / 16777216) mod 256].

Fixpoint words (n : nat) (block : bytes) : list Z :=
  match n with
  | O => []
  | S n' =>
      (nth 0 block 0 + 256 * nth 1 block 0
       + 65536 * nth 2 block 0 + 16777216 * nth 3 block 0)
      :: words n' (skipn 4 block)
  end.

(** One of the 64 operations on the working state, for message words [m]. *)
Definition step (m : list Z) (st : state) (i : nat) : state :=
  let iz := Z.of_nat i in
  let '(f, g) :=
    if iz <? 16 then
      (Z.lor (Z.land (sb st) (sc st)) (Z.land (not32 (sb st)) (sd st)), iz)
    else if iz <? 32 then
      (Z.lor (Z.land (sd st) (sb st)) (Z.land (not32 (sd st)) (sc st)),
       (5 * iz + 1) mod 16)
    else if iz <? 48 then
      (Z.lxor (sb st) (Z.lxor (sc st) (sd st)), (3 * iz + 5) mod 16)
    else
      (Z.lxor (sc st) (Z.lor (sb st) (not32 (sd st))), (7 * iz) mod 16) in
  let f := w32 (f + sa st + nth i sines 0 + nth (Z.to_nat g) m 0) in
  {| sa := sd st;
     sd := sc st;
     sc := sb st;
     sb := w32 (sb st + rotl32 f (nth i shifts 0)) |}.

(** Process one 64-byte block. *)
Definition block (st : state) (chunk : bytes) : state :=
  let m := words 16 chunk in
  let st' := fold_left (step m) (seq 0 64) st in
  {| sa := w32 (sa st + sa st');
     sb := w32 (sb st + sb st');
     sc := w32 (sc st + sc st');
     sd := w32 (sd st + sd st') |}.

Fixpoint blocks (n : nat) (st : state) (msg : bytes) : state :=
  match n with
  | O => st
  | S n' => blocks n' (block st (firstn 64 msg)) (skipn 64 msg)
  end.

(** The message followed by 0x80, zeros up to 56 modulo 64, and the bit
    length as a 64-bit little-endian integer. *)
Definition pad (msg : bytes) : bytes :=
  let len := Z.of_nat (List.length msg) in
  let bits := (8 * len) mod 18446744073709551616 in
  msg ++ [128] ++ repeat 0 (Z.to_nat ((55 - len) mod 64))
      ++ le32 (bits mod 4294967296) ++ le32 (bits / 4294967296).

Definition digest (msg : bytes) : bytes :=
  let padded := pad msg in
  let st := blocks (Nat.div (List.length padded) 64) init padded in
  le32 (sa st) ++ le32 (sb st) ++ le32 (sc st) ++ le32 (sd st).

Definition hexdigit (n : Z) : Z := if n <? 10 then 48 + n else 87 + n.

Definition hex_of_byte (b : Z) : str := [hexdigit (b / 16); hexdigit (b mod 16)].

Definition hexdigest (msg : bytes) : str := flat_map hex_of_byte (digest msg).

End MD5.

(* ================================================================== *)
(** ** Python values and dictionaries *)

#[local] Unset Elimination Schemes.
Inductive pyval :=
| PStr (s : str)
| PInt (n : Z)
| PBool (b : bool)
| PList (items : list pyval)
| PDict (entries : list (str * pyval)).
#[local] Set Elimination Schemes.

Definition dict := list (str * pyval).

Fixpoint dict_get (key : str) (d : dict) : option pyval :=
  match d with
  | [] => None
  | (k, v) :: rest => if str_eqb key k then Some v else dict_get key rest
  end.

Definition dict_keys (d : dict) : list str := map fst d.

(** [d[key] = value]: an existing key keeps its position. *)
Fixpoint dict_set (key : str) (value : pyval) (d : dict) : dict :=
  match d with
  | [] => [(key, value)]
  | (k, v) :: rest =>
      if str_eqb key k then (k, value) :: rest
      else (k, v) :: dict_set key value rest
  end.

(** [d.pop(key, None)], the dictionary afterwards. *)
Fixpoint dict_remove (key : str) (d : dict) : dict :=
  match d with
  | [] => []
  | (k, v) :: rest =>
      if str_eqb key k then rest else (k, v) :: dict_remove key rest
  end.

(** [d.pop(key)]: the value and the dictionary afterwards. *)
Definition dict_pop (key : str) (d : dict) : Py (pyval * dict) :=
  match dict_get key d with
  | Some v => ret (v, dict_remove key d)
  | None => raise (KeyError key)
  end.

(** [{**d, **extra}]. *)
Definition dict_merge (d extra : dict) : dict :=
  fold_left (fun acc kv => dict_set (fst kv) (snd kv) acc) extra d.

(* ================================================================== *)
(** ** Field type registry *)

Definition SUPPORTED_TYPES : list (str * dict) :=
  [ (lit "text",
      [ (lit "type", PStr (lit "text")); (lit "label", PStr (lit "Texte")) ]);
    (lit "textarea",
      [ (lit "type", PStr (lit "textarea"));
        (lit "label", PStr (lit "Zone de texte")) ]);
    (lit "image",
      [ (lit "type", PStr (lit "image")); (lit "label", PStr (lit "Image"));
        (lit "return_format", PStr (lit "array"));
        (lit "preview_size", PStr (lit "medium")) ]);
    (lit "number",
      [ (lit "type", PStr (lit "number")); (lit "label", PStr (lit "Nombre")) ]);
    (lit "wysiwyg",
      [ (lit "type", PStr (lit "wysiwyg"));
        (* U+00C9 then "diteur WYSIWYG" *)
        (lit "label", PStr (201 :: lit "diteur WYSIWYG"));
        (lit "tabs", PStr (lit "all")); (lit "toolbar", PStr (lit "full")) ]);
    (lit "select",
      [ (lit "type", PStr (lit "select"));
        (* "Liste d", U+00E9, "roulante" *)
        (lit "label", PStr (lit "Liste d" ++ 233 :: lit "roulante"));
        (lit "choices",
          PDict [ (lit "option1", PStr (lit "Option 1"));
                  (lit "option2", PStr (lit "Option 2")) ]) ]);
    (lit "date",
      [ (lit "type", PStr (lit "date_picker")); (lit "label", PStr (lit "Date"));
        (lit "display_format", PStr (lit "d/m/Y"));
        (lit "return_format", PStr (lit "Y-m-d")) ]) ].

(** [SUPPORTED_TYPES.keys()]. *)
Definition supported_keys : list str := map fst SUPPORTED_TYPES.

(** [tag in SUPPORTED_TYPES]. *)
Definition supported (tag : str) : bool :=
  existsb (str_eqb tag) supported_keys.

(** [SUPPORTED_TYPES[tag]]. *)
Fixpoint registry_get (tag : str) (registry : list (str * dict))
  : option dict :=
  match registry with
  | [] => None
  | (k, v) :: rest => if str_eqb tag k then Some v else registry_get tag rest
  end.

Definition type_config_of (tag : str) : Py dict :=
  match registry_get tag SUPPORTED_TYPES with
  | Some config => ret config
  | None => raise (KeyError tag)
  end.

(* ================================================================== *)
(** ** Fields and the field parser *)

Record Field := {
  name : str;
  field_type : str;
  label : str
}.

Section Generator.
Context {cm : CaseMapping}.

Definition malformed_message (field_str : str) : str :=
  lit "Format invalide: " ++ field_str ++ lit ". Utilisez 'nom:type'".

(** The text is "Type '...' non support", U+00E9, ". Types valides: ...". *)
Definition unsupported_message (field_type : str) : str :=
  lit "Type '" ++ field_type ++ lit "' non support" ++ [233]
    ++ lit ". Types valides: " ++ str_join (lit ", ") supported_keys.

(** The test [':' not in field_str] and [field_str.split(':', 1)] are one
    scan here: [split_once] is [None] exactly when there is no [':']. *)
Definition parse_field (field_str : str) : Py Field :=
  match split_once colon field_str with
  | None => raise (BadParameter (malformed_message field_str))
  | Some (name, field_type) =>
      if negb (supported field_type)
      then raise (BadParameter (unsupported_message field_type))
      else ret {| name := to_snake_case name;
                  field_type := field_type;
                  label := to_label name |}
  end.

(* ================================================================== *)
(** ** Key generators *)

(** [hashlib.md5(text.encode()).hexdigest()]. *)
Definition md5_hex (text : str) : Py str :=
  fun _ => match str_encode text with
           | Ok data => Ok (MD5.hexdigest data)
           | Raise e => Raise e
           end.

Definition generate_field_key (module_name field_name : str) : Py str :=
  let unique_str := module_name ++ lit "_" ++ field_name in
  digest <- md5_hex unique_str ;;
  let hash_suffix := firstn 8 digest in
  ret (lit "field_" ++ hash_suffix).

Definition generate_group_key (module_name : str) : Py str :=
  digest <- md5_hex module_name ;;
  let hash_suffix := firstn 8 digest in
  ret (lit "group_" ++ hash_suffix).

(* ================================================================== *)
(** ** Schema builder *)

(** [type_config] is a copy of the registry entry, so the two [pop]s leave
    the registry as it was; [order] is not used. *)
Definition build_acf_field (field : Field) (module_name : str) (order : Z)
  : Py dict :=
  type_config <- type_config_of (field_type field) ;;
  popped <- dict_pop (lit "type") type_config ;;
  let '(field_type, type_config) := popped in
  let type_config := dict_remove (lit "label") type_config in
  key <- generate_field_key module_name (name field) ;;
  ret (dict_merge
         [ (lit "key", PStr key);
           (lit "label", PStr (label field));
           (lit "name", PStr (name field));
           (lit "type", field_type);
           (lit "instructions", PStr (lit ""));
           (lit "required", PInt 0);
           (lit "conditional_logic", PInt 0);
           (lit "wrapper",
             PDict [ (lit "width", PStr (lit ""));
                     (lit "class", PStr (lit ""));
                     (lit "id", PStr (lit "")) ]) ]
         type_config).

Definition build_acf_json (module_name slug : str) (fields : list Field)
  : Py dict :=
  acf_fields <- for_each (fun '(i, field) => build_acf_field field module_name i)
                         (enumerate_from 0 fields) ;;
  key <- generate_group_key module_name ;;
  modified <- now_timestamp ;;
  ret [ (lit "key", PStr key);
        (lit "title", PStr (lit "Champs " ++ module_name));
        (lit "fields", PList (map PDict acf_fields));
        (lit "location",
          PList [ PList [ PDict [ (lit "param", PStr (lit "post_type"));
                                  (lit "operator", PStr (lit "=="));
                                  (lit "value", PStr slug) ] ] ]);
        (lit "menu_order", PInt 0);
        (lit "position", PStr (lit "normal"));
        (lit "style", PStr (lit "default"));
        (lit "label_placement", PStr (lit "top"));
        (lit "instruction_placement", PStr (lit "label"));
        (lit "hide_on_screen", PStr (lit ""));
        (lit "active", PBool true);
        (lit "description",
          PStr (lit "Groupe de champs pour le module " ++ module_name));
        (lit "show_in_rest", PInt 1);
        (lit "modified", PInt modified) ].

End Generator.

(** Two processes that differ in everything a process brings with it. *)
Definition run0 : Run := {| unix_time := 1700000000; hash_seed := 0 |}.

Definition run1 : Run := {| unix_time := 1800000123; hash_seed := 42 |}.

(* ================================================================== *)
(** ** Properties used in the statements *)

(** A character of a slug: [a-z0-9] or the hyphen. *)
Definition slug_char (c : Z) : Prop := az09 c = true \/ c = hyphen.

(** A character of a snake-case name: [a-z0-9] or the underscore. *)
Definition snake_char (c : Z) : Prop := az09 c = true \/ c = underscore.

(** No two adjacent occurrences of [h]. *)
Fixpoint no_pair (h : Z) (s : str) : Prop :=
  match s with
  | [] => True
  | a :: rest =>
      match rest with
      | [] => True
      | b :: _ => ~ (a = h /\ b = h)
      end /\ no_pair h rest
  end.

(** [sep] separates the words of [s]: it is neither first nor last, and
    never doubled. *)
Definition separated_by (sep : Z) (s : str) : Prop :=
  (forall rest, s <> sep :: rest)
  /\ (forall front, s <> front ++ [sep])
  /\ (forall front rest, s <> front ++ sep :: sep :: rest).

(** A lower-case hexadecimal digit. *)
Definition lower_hex (c : Z) : Prop :=
  (48 <= c <= 57) \/ (97 <= c <= 102).

(** UTF-8 can encode the text: no code point is a surrogate. *)
Definition encodable (text : str) : Prop :=
  Forall (fun c => is_surrogate c = false) text.

(** A word: a non-empty run of characters of [a-z0-9]. *)
Definition word (w : str) : Prop :=
  w <> [] /\ Forall (fun c => az09 c = true) w.

(** A gap: a run, possibly empty, of characters outside [a-z0-9]. *)
Definition gap (s : str) : Prop := Forall (fun c => az09 c = false) s.

(** A gap between two words: a non-empty gap, then the next word. *)
Definition gap_then_word (p : str * str) : Prop :=
  gap (fst p) /\ fst p <> [] /\ word (snd p).

(** What [str.replace] does to each character when both arguments are one
    character long. *)
Definition swap_char (old new c : Z) : Z := if c =? old then new else c.

(** A computation whose outcome, value or exception, is the same in every
    process. *)
Definition run_independent {A} (m : Py A) : Prop :=
  forall run1 run2 : Run, m run1 = m run2.

Definition is_byte (b : Z) : Prop := 0 <= b < 256.

(** The top-level keys of the document, in order. *)
Definition document_keys : list str :=
  [ lit "key"; lit "title"; lit "fields"; lit "location"; lit "menu_order";
    lit "position"; lit "style"; lit "label_placement";
    lit "instruction_placement"; lit "hide_on_screen"; lit "active";
    lit "description"; lit "show_in_rest"; lit "modified" ].

(** The keys every field entry starts with, in order. *)
Definition entry_keys : list str :=
  [ lit "key"; lit "label"; lit "name"; lit "type"; lit "instructions";
    lit "required"; lit "conditional_logic"; lit "wrapper" ].

(** The attributes of a registry entry other than its [type] and [label]. *)
Definition type_extras (config : dict) : dict :=
  filter (fun kv => negb (str_eqb (fst kv) (lit "type"))
                    && negb (str_eqb (fst kv) (lit "label"))) config.

(** The entry of a field: key, label, canonical name, kind, the fixed
    defaults, then the extra attributes of its type. *)
Definition rendered_entry (key : str) (field : Field) (kind : pyval)
                          (extras : dict) : dict :=
  [ (lit "key", PStr key);
    (lit "label", PStr (label field));
    (lit "name", PStr (name field));
    (lit "type", kind);
    (lit "instructions", PStr []);
    (lit "required", PInt 0);
    (lit "conditional_logic", PInt 0);
    (lit "wrapper",
      PDict [ (lit "width", PStr []); (lit "class", PStr []);
              (lit "id", PStr []) ]) ]
  ++ extras.

(** The rule "content type equals [slug]". *)
Definition location_rule (slug : str) : pyval :=
  PList [ PList [ PDict [ (lit "param", PStr (lit "post_type"));
                          (lit "operator", PStr (lit "=="));
                          (lit "value", PStr slug) ] ] ].

(** [entry] is what the registry and the key generator prescribe for
    [field] in module [module_name]. *)
Definition entry_of (module_name : str) (run : Run) (field : Field)
                    (entry : dict) : Prop :=
  exists config kind key,
    registry_get (field_type field) SUPPORTED_TYPES = Some config
    /\ dict_get (lit "type") config = Some kind
    /\ generate_field_key module_name (name field) run = Ok key
    /\ entry = rendered_entry key field kind (type_extras config)
    /\ dict_keys entry = entry_keys ++ dict_keys (type_extras config)
    /\ ~ In (lit "type") (dict_keys (type_extras config))
    /\ ~ In (lit "label") (dict_keys (type_extras config)).

(** A field the schema builder can render. *)
Definition renderable (field : Field) : Prop :=
  encodable (name field) /\ In (field_type field) supported_keys.

(** The fields of [module Produit titre:text prix:number image:image]. *)
Definition produit_fields : list Field :=
  [ {| name := lit "titre"; field_type := lit "text"; label := lit "Titre" |};
    {| name := lit "prix"; field_type := lit "number"; label := lit "Prix" |};
    {| name := lit "image"; field_type := lit "image"; label := lit "Image" |} ].

(* ================================================================== *)
(** ** Further properties used in the statements *)

(** The six accent folds of [slugify] as one map on characters. *)
Definition fold_char (c : Z) : Z :=
  if char_in [224; 225; 226; 227; 228; 229] c then 97
  else if char_in [232; 233; 234; 235] c then 101
  else if char_in [236; 237; 238; 239] c then 105
  else if char_in [242; 243; 244; 245; 246] c then 111
  else if char_in [249; 250; 251; 252] c then 117
  else if char_in [231] c then 99
  else c.

(** The code points [fold_accents] folds away. *)
Definition accented : list Z :=
  [224; 225; 226; 227; 228; 229; 232; 233; 234; 235; 236; 237; 238; 239;
   242; 243; 244; 245; 246; 249; 250; 251; 252; 231].

(** A character of a slug or of a snake-case name. *)
Definition plain_char (c : Z) : Prop :=
  az09 c = true \/ c = hyphen \/ c = underscore.

(** [str.lower] leaves a text of [a-z0-9], hyphens and underscores as it
    is. *)
Definition lower_keeps_plain (cm : CaseMapping) : Prop :=
  forall s : str, Forall plain_char s -> str_lower s = s.

(** [str.title] does not produce the character [h] out of a text without
    it. *)
Definition title_keeps_out (cm : CaseMapping) (h : Z) : Prop :=
  forall s : str, ~ In h s -> ~ In h (str_title s).

(** A lower-case ASCII letter. *)
Definition lower_letter (c : Z) : Prop := 97 <= c <= 122.

(* ================================================================== *)
(** ** Calls to the outside: file system, template engine, console

    [generate] and the two commands are sequences of calls to code outside
    the file, each of which may raise.  A program ([Prog]) is the tree of
    these calls; how they are answered is left to the world that runs it
    ([exec]). *)

(** The parts of a [pathlib.Path]. *)
Definition path := list str.

(** [p / segment], for a segment without ['/'] that is not ["."]; the
    empty segment adds nothing.  Every segment joined below is of this
    kind. *)
Definition path_join (p : path) (segment : str) : path :=
  match segment with
  | [] => p
  | _ => p ++ [segment]
  end.

(** [p.relative_to(base)], [None] for the [ValueError]. *)
Fixpoint relative_to (p base : path) : option path :=
  match base, p with
  | [], _ => Some p
  | b :: base', x :: p' => if str_eqb x b then relative_to p' base' else None
  | _ :: _, [] => None
  end.

(** [text.ljust(width)], which is what the format [{text:width}] does to a
    str. *)
Definition str_ljust (width : nat) (text : str) : str :=
  text ++ repeat 32 (width - List.length text).

(** The template context built by [generate]. *)
Record Context := {
  ctx_module_name : str;
  ctx_slug : str;
  ctx_snake_name : str;
  ctx_prefix : str;
  ctx_fields : list Field;
  ctx_field_types : list (str * dict);
  ctx_generated_at : str
}.

Inductive failure :=
| Raised (e : exception)         (* an exception of this file *)
| ExternalError (kind : str)     (* any other [Exception] *)
| SystemExit (code : Z).

(** The parts of a formatted message: text, and the values whose text is
    the interpreter's business. *)
Inductive piece :=
| Text (s : str)
| ShowInt (n : Z)
| ShowPath (p : path)
| ShowError (f : failure).

Inductive op : Type -> Type :=
| Mkdir (p : path) (parents exist_ok : bool) : op unit
| NowStrftime (format : str) : op str
| RenderTemplate (template : str) (context : Context) : op str
    (* env.get_template(template).render( **context) *)
| JsonDumps (data : dict) : op str
    (* json.dumps(data, indent=2, ensure_ascii=False) *)
| WriteText (p : path) (content : str) : op unit
| Echo (message : list piece) (err : bool) : op unit
| Resolve (output : str) : op path
    (* Path(output).resolve() *)
| JinjaEnvironment : op unit
    (* WordPressModuleGenerator.__init__: Environment(loader=...) *)
| RglobSorted (p : path) : op (list path)
    (* sorted(p.rglob("*")) *)
| IsFile (p : path) : op bool.

Inductive outcome (R : Type) :=
| Returned (r : R)
| Failed (f : failure).

Arguments Returned {R} r.
Arguments Failed {R} f.

Inductive Prog (A : Type) : Type :=
| Done (a : A)
| Abort (f : failure)
| Call {R : Type} (o : op R) (k : outcome R -> Prog A).

Arguments Done {A} a.
Arguments Abort {A} f.
Arguments Call {A R} o k.

Fixpoint pbind {A B} (p : Prog A) (k : A -> Prog B) : Prog B :=
  match p with
  | Done a => k a
  | Abort f => Abort f
  | Call o c => Call o (fun out => pbind (c out) k)
  end.

Notation "x <-- p ;; k" := (pbind p (fun x => k))
  (at level 61, p at next level, right associativity).
Notation "p >> k" := (pbind p (fun _ => k))
  (at level 61, right associativity).

(** A call whose exception is not caught. *)
Definition call {R} (o : op R) : Prog R :=
  Call o (fun out => match out with
                     | Returned r => Done r
                     | Failed f => Abort f
                     end).

(** A computation of the core, run in process [run]. *)
Definition lift {A} (m : Py A) (run : Run) : Prog A :=
  match m run with
  | Ok a => Done a
  | Raise e => Abort (Raised e)
  end.

(** [try: body except Exception as e: handler(e)]; [SystemExit] is not an
    [Exception]. *)
Fixpoint try_except {A} (body : Prog A) (handler : failure -> Prog A)
  : Prog A :=
  match body with
  | Done a => Done a
  | Abort (SystemExit code) => Abort (SystemExit code)
  | Abort f => handler f
  | Call o c => Call o (fun out => try_except (c out) handler)
  end.

(** [for x in items: body(x)]. *)
Fixpoint for_all {A} (body : A -> Prog unit) (items : list A) : Prog unit :=
  match items with
  | [] => Done tt
  | x :: rest => body x >> for_all body rest
  end.

(** [d[key]]. *)
Definition dict_item (key : str) (d : dict) : Prog pyval :=
  match dict_get key d with
  | Some v => Done v
  | None => Abort (Raised (KeyError key))
  end.

(** The text of a value inside a formatted string, for a value that is a
    str; the values formatted below are. *)
Definition str_of (v : pyval) : Prog str :=
  match v with
  | PStr s => Done s
  | _ => Abort (ExternalError (lit "format"))
  end.

(** What happened: a call and its outcome. *)
Inductive event :=
| Event {R : Type} (o : op R) (out : outcome R).

(** How the outside answers a call, given what happened before. *)
Definition world := forall R : Type, op R -> list event -> outcome R.

Fixpoint exec {A} (w : world) (p : Prog A) (past : list event)
  : list event * outcome A :=
  match p with
  | Done a => (past, Returned a)
  | Abort f => (past, Failed f)
  | Call o k =>
      let out := w _ o past in
      exec w (k out) (past ++ [Event o out])
  end.

Section Commands.
Context {cm : CaseMapping}.

Definition _generate_cpt (module_dir : path) (context : Context)
  : Prog unit :=
  content <-- call (RenderTemplate (lit "cpt.php.j2") context) ;;
  call (Mkdir (path_join module_dir (lit "includes")) false true) >>
  call (WriteText
          (path_join (path_join module_dir (lit "includes"))
             (lit "cpt-" ++ ctx_slug context ++ lit ".php"))
          content).

Definition _generate_acf_json (module_dir : path) (context : Context)
                              (fields : list Field) (run : Run)
  : Prog unit :=
  acf_data <-- lift (build_acf_json (ctx_module_name context)
                       (ctx_slug context) fields) run ;;
  key_value <-- dict_item (lit "key") acf_data ;;
  key <-- str_of key_value ;;
  let acf_file :=
    path_join (path_join module_dir (lit "acf-json")) (key ++ lit ".json") in
  text <-- call (JsonDumps acf_data) ;;
  call (WriteText acf_file text).

Definition _generate_single_template (module_dir : path) (context : Context)
  : Prog unit :=
  content <-- call (RenderTemplate (lit "single.php.j2") context) ;;
  call (Mkdir (path_join module_dir (lit "templates")) false true) >>
  call (WriteText
          (path_join (path_join module_dir (lit "templates"))
             (lit "single-" ++ ctx_slug context ++ lit ".php"))
          content).

Definition _generate_archive_template (module_dir : path) (context : Context)
  : Prog unit :=
  content <-- call (RenderTemplate (lit "archive.php.j2") context) ;;
  call (Mkdir (path_join module_dir (lit "templates")) false true) >>
  call (WriteText
          (path_join (path_join module_dir (lit "templates"))
             (lit "archive-" ++ ctx_slug context ++ lit ".php"))
          content).

Definition _generate_shortcode (module_dir : path) (context : Context)
  : Prog unit :=
  content <-- call (RenderTemplate (lit "shortcode.php.j2") context) ;;
  call (Mkdir (path_join module_dir (lit "includes")) false true) >>
  call (WriteText
          (path_join (path_join module_dir (lit "includes"))
             (lit "shortcode-" ++ ctx_slug context ++ lit ".php"))
          content).

Definition _generate_main_plugin (module_dir : path) (context : Context)
  : Prog unit :=
  content <-- call (RenderTemplate (lit "plugin.php.j2") context) ;;
  call (WriteText (path_join module_dir (ctx_slug context ++ lit ".php"))
          content).

Definition _generate_readme (module_dir : path) (context : Context)
  : Prog unit :=
  content <-- call (RenderTemplate (lit "README.md.j2") context) ;;
  call (WriteText (path_join module_dir (lit "README.md")) content).

(** [WordPressModuleGenerator(output_dir).generate(module_name, fields)]. *)
Definition generate (output_dir : path) (module_name : str)
                    (fields : list Field) (run : Run) : Prog path :=
  let slug := slugify module_name in
  let snake_name := to_snake_case module_name in
  let module_dir := path_join output_dir slug in
  call (Mkdir module_dir true true) >>
  call (Mkdir (path_join module_dir (lit "acf-json")) false true) >>
  generated_at <-- call (NowStrftime (lit "%Y-%m-%d %H:%M:%S")) ;;
  let context :=
    {| ctx_module_name := module_name;
       ctx_slug := slug;
       ctx_snake_name := snake_name;
       ctx_prefix := firstn 3 snake_name;
       ctx_fields := fields;
       ctx_field_types := SUPPORTED_TYPES;
       ctx_generated_at := generated_at |} in
  _generate_cpt module_dir context >>
  _generate_acf_json module_dir context fields run >>
  _generate_single_template module_dir context >>
  _generate_archive_template module_dir context >>
  _generate_shortcode module_dir context >>
  _generate_main_plugin module_dir context >>
  _generate_readme module_dir context >>
  Done module_dir.

(** The parsing loop of [module]: the fields parsed so far, or the exit
    at the first token that [parse_field] refuses. *)
Fixpoint parse_all (fields : list str) (parsed_fields : list Field)
                   (run : Run) : Prog (list Field) :=
  match fields with
  | [] => Done parsed_fields
  | field_str :: rest =>
      match parse_field field_str run with
      | Ok field => parse_all rest (parsed_fields ++ [field]) run
      | Raise (BadParameter message) =>
          call (Echo [Text ([10060] ++ lit " Erreur: " ++ message)] true) >>
          Abort (SystemExit 1)
      | Raise e => Abort (Raised e)
      end
  end.

(** The listing loop of [module]. *)
Definition list_file (module_dir file : path) : Prog unit :=
  is_file <-- call (IsFile file) ;;
  if is_file : bool then
    match relative_to file module_dir with
    | Some rel_path => call (Echo [Text (lit "   - "); ShowPath rel_path] false)
    | None => Abort (ExternalError (lit "ValueError"))
    end
  else Done tt.

(** The command [module NAME FIELDS... --output OUTPUT]; its argument
    [name] is [module_name] here, [name] being the projection of [Field]. *)
Definition module (module_name : str) (fields : list str) (output : str)
                  (run : Run) : Prog unit :=
  call (Echo [Text ([128640] ++ lit " G" ++ [233] ++ lit "n" ++ [233]
                      ++ lit "ration du module '" ++ module_name ++ lit "'...")]
             false) >>
  parsed_fields <-- parse_all fields [] run ;;
  call (Echo [Text ([128203] ++ lit " ");
              ShowInt (Z.of_nat (List.length parsed_fields));
              Text (lit " champ(s) d" ++ [233] ++ lit "tect" ++ [233]
                      ++ lit "(s):")]
             false) >>
  for_all (fun field =>
             call (Echo [Text (lit "   - " ++ name field ++ lit " ("
                                 ++ field_type field ++ lit ")")]
                        false))
          parsed_fields >>
  output_path <-- call (Resolve output) ;;
  call JinjaEnvironment >>
  try_except
    (module_dir <-- generate output_path module_name parsed_fields run ;;
     call (Echo [Text ([10; 9989] ++ lit " Module g" ++ [233] ++ lit "n"
                         ++ [233] ++ lit "r" ++ [233] ++ lit " avec succ"
                         ++ [232] ++ lit "s!")]
                false) >>
     call (Echo [Text ([128193] ++ lit " Emplacement: "); ShowPath module_dir]
                false) >>
     call (Echo [Text ([10; 128230] ++ lit " Fichiers g" ++ [233] ++ lit "n"
                         ++ [233] ++ lit "r" ++ [233] ++ lit "s:")]
                false) >>
     files <-- call (RglobSorted module_dir) ;;
     for_all (list_file module_dir) files)
    (fun e =>
       call (Echo [Text ([10060] ++ lit " Erreur lors de la g" ++ [233]
                           ++ lit "n" ++ [233] ++ lit "ration: ");
                   ShowError e]
                  true) >>
       Abort (SystemExit 1)).

End Commands.

(** The command [list-types]. *)
Definition list_types : Prog unit :=
  call (Echo [Text ([128203] ++ lit " Types de champs support" ++ [233]
                      ++ lit "s:" ++ [10])]
             false) >>
  for_all (fun '(type_name, config) =>
             label_value <-- dict_item (lit "label") config ;;
             label <-- str_of label_value ;;
             call (Echo [Text (lit "  " ++ str_ljust 12 type_name ++ lit " - "
                                 ++ label)]
                        false))
          SUPPORTED_TYPES >>
  call (Echo [Text ([10; 128161]
                      ++ lit " Utilisation: wp-gen module NomModule champ:type")]
             false).

(** A path segment that names an entry of its directory: not empty,
    without ['/'], neither ["."] nor [".."]. *)
Definition safe_segment (s : str) : Prop :=
  s <> [] /\ ~ In 47 s /\ s <> lit "." /\ s <> lit "..".

(** [p] is [root], or lies below it. *)
Definition inside (root p : path) : Prop :=
  exists rest, p = root ++ rest /\ Forall safe_segment rest.

(** [p] lies below [root]. *)
Definition below (root p : path) : Prop :=
  exists rest, p = root ++ rest /\ rest <> [] /\ Forall safe_segment rest.

(** What [generate] may ask for, [module_dir] being the module directory:
    the module directory itself with [parents=True], the call by which
    the file system creates whatever is missing above it; a directory
    directly inside the module directory with [parents=False]; both with
    [exist_ok=True] and at or below the output directory; a file below
    the module directory; the time, a rendering, a JSON text; nothing
    else. *)
Definition generate_event (output_dir module_dir : path) (ev : event)
  : Prop :=
  match ev with
  | Event o _ =>
      match o with
      | Mkdir p parents exist_ok =>
          exist_ok = true
          /\ inside output_dir p
          /\ ((p = module_dir /\ parents = true)
              \/ (exists dir,
                     safe_segment dir /\ p = module_dir ++ [dir]
                     /\ parents = false))
      | WriteText p _ => below module_dir p /\ below output_dir p
      | NowStrftime _ => True
      | RenderTemplate _ _ => True
      | JsonDumps _ => True
      | _ => False
      end
  end.

(** A message on the console. *)
Definition echo_event (ev : event) : Prop :=
  match ev with
  | Event o _ => match o with Echo _ _ => True | _ => False end
  end.

(** Every call the program can make, however the calls before it were
    answered, satisfies [P]. *)
Fixpoint always {A} (P : event -> Prop) (p : Prog A) : Prop :=
  match p with
  | Done _ => True
  | Abort _ => True
  | Call o k => forall out, P (Event o out) /\ always P (k out)
  end.

(** The paths written, in order. *)
Fixpoint written (trace : list event) : list path :=
  match trace with
  | [] => []
  | Event o _ :: rest =>
      match o with
      | WriteText p _ => p :: written rest
      | _ => written rest
      end
  end.

(** A world in which every call returns. *)
Definition answers (w : world) : Prop :=
  forall (R : Type) (o : op R) (past : list event),
    exists r, w R o past = Returned r.

(** A world whose console, path resolution and template environment
    work, and in which no call raises [SystemExit]. *)
Definition console_works (w : world) : Prop :=
  (forall message err past, w _ (Echo message err) past = Returned tt)
  /\ (forall output past, exists p, w _ (Resolve output) past = Returned p)
  /\ (forall past, w _ JinjaEnvironment past = Returned tt)
  /\ (forall (R : Type) (o : op R) past code,
         w R o past <> Failed (SystemExit code)).

(** A world that answers every call the plainest way. *)
Definition plain_world : world :=
  fun R o _ =>
    match o in op R return outcome R with
    | Mkdir _ _ _ => Returned tt
    | NowStrftime _ => Returned (lit "2024-01-01 00:00:00")
    | RenderTemplate template _ => Returned template
    | JsonDumps _ => Returned (lit "{}")
    | WriteText _ _ => Returned tt
    | Echo _ _ => Returned tt
    | Resolve output => Returned [output]
    | JinjaEnvironment => Returned tt
    | RglobSorted _ => Returned []
    | IsFile _ => Returned true
    end.

Section Scripts.
Context {cm : CaseMapping}.

(** What a run of [generate] looks like when every call returns: the two
    directories, the time, then for each artefact its rendering, its
    directory if it has one, and its file, holding what was rendered. *)
Definition generate_script (output_dir : path) (module_name : str)
                           (fields : list Field) (run : Run)
                           (trace : list event) : Prop :=
  exists generated_at cpt doc key json single archive shortcode plugin readme,
    let slug := slugify module_name in
    let module_dir := path_join output_dir slug in
    let context :=
      {| ctx_module_name := module_name;
         ctx_slug := slug;
         ctx_snake_name := to_snake_case module_name;
         ctx_prefix := firstn 3 (to_snake_case module_name);
         ctx_fields := fields;
         ctx_field_types := SUPPORTED_TYPES;
         ctx_generated_at := generated_at |} in
    let includes := path_join module_dir (lit "includes") in
    let templates := path_join module_dir (lit "templates") in
    let acf_json := path_join module_dir (lit "acf-json") in
    build_acf_json module_name slug fields run = Ok doc
    /\ generate_group_key module_name run = Ok key
    /\ trace =
       [ Event (Mkdir module_dir true true) (Returned tt);
         Event (Mkdir acf_json false true) (Returned tt);
         Event (NowStrftime (lit "%Y-%m-%d %H:%M:%S")) (Returned generated_at);
         Event (RenderTemplate (lit "cpt.php.j2") context) (Returned cpt);
         Event (Mkdir includes false true) (Returned tt);
         Event (WriteText (path_join includes (lit "cpt-" ++ slug ++ lit ".php"))
                  cpt) (Returned tt);
         Event (JsonDumps doc) (Returned json);
         Event (WriteText (path_join acf_json (key ++ lit ".json")) json)
               (Returned tt);
         Event (RenderTemplate (lit "single.php.j2") context) (Returned single);
         Event (Mkdir templates false true) (Returned tt);
         Event (WriteText
                  (path_join templates (lit "single-" ++ slug ++ lit ".php"))
                  single) (Returned tt);
         Event (RenderTemplate (lit "archive.php.j2") context)
               (Returned archive);
         Event (Mkdir templates false true) (Returned tt);
         Event (WriteText
                  (path_join templates (lit "archive-" ++ slug ++ lit ".php"))
                  archive) (Returned tt);
         Event (RenderTemplate (lit "shortcode.php.j2") context)
               (Returned shortcode);
         Event (Mkdir includes false true) (Returned tt);
         Event (WriteText
                  (path_join includes (lit "shortcode-" ++ slug ++ lit ".php"))
                  shortcode) (Returned tt);
         Event (RenderTemplate (lit "plugin.php.j2") context) (Returned plugin);
         Event (WriteText (path_join module_dir (slug ++ lit ".php")) plugin)
               (Returned tt);
         Event (RenderTemplate (lit "README.md.j2") context) (Returned readme);
         Event (WriteText (path_join module_dir (lit "README.md")) readme)
               (Returned tt) ].

(** What a run of [generate] looks like when every call returns and the
    schema cannot be built: the calls up to the content-type file, and
    nothing after it. *)
Definition partial_script (output_dir : path) (module_name : str)
                          (fields : list Field) (trace : list event) : Prop :=
  exists generated_at cpt,
    let slug := slugify module_name in
    let module_dir := path_join output_dir slug in
    let context :=
      {| ctx_module_name := module_name;
         ctx_slug := slug;
         ctx_snake_name := to_snake_case module_name;
         ctx_prefix := firstn 3 (to_snake_case module_name);
         ctx_fields := fields;
         ctx_field_types := SUPPORTED_TYPES;
         ctx_generated_at := generated_at |} in
    let includes := path_join module_dir (lit "includes") in
    let acf_json := path_join module_dir (lit "acf-json") in
    trace =
    [ Event (Mkdir module_dir true true) (Returned tt);
      Event (Mkdir acf_json false true) (Returned tt);
      Event (NowStrftime (lit "%Y-%m-%d %H:%M:%S")) (Returned generated_at);
      Event (RenderTemplate (lit "cpt.php.j2") context) (Returned cpt);
      Event (Mkdir includes false true) (Returned tt);
      Event (WriteText (path_join includes (lit "cpt-" ++ slug ++ lit ".php"))
               cpt) (Returned tt) ].

End Scripts.

(** A program none of whose own [raise]s is a [SystemExit], as long as the
    calls it makes raise none. *)
Fixpoint clean {A} (p : Prog A) : Prop :=
  match p with
  | Done _ => True
  | Abort f => forall code, f <> SystemExit code
  | Call o k =>
      forall out, (forall code, out <> Failed (SystemExit code)) -> clean (k out)
  end.

(** The line of [list-types] for an entry of the registry. *)
Definition type_line (entry : str * dict) : str :=
  match dict_get (lit "label") (snd entry) with
  | Some (PStr label) =>
      lit "  " ++ fst entry ++ repeat 32 (12 - List.length (fst entry))
        ++ lit " - " ++ label
  | _ => []
  end.

(** A message sent to standard output that returned. *)
Definition said (line : str) : event :=
  Event (Echo [Text line] false) (Returned tt).

Section ContextShape.
Context {cm : CaseMapping}.

(** What every rendering of [generate] is given. *)
Definition render_event (module_name : str) (fields : list Field)
                        (ev : event) : Prop :=
  match ev with
  | Event o _ =>
      match o with
      | RenderTemplate template context =>
          In template [lit "cpt.php.j2"; lit "single.php.j2";
                       lit "archive.php.j2"; lit "shortcode.php.j2";
                       lit "plugin.php.j2"; lit "README.md.j2"]
          /\ ctx_module_name context = module_name
          /\ ctx_slug context = slugify module_name
          /\ ctx_snake_name context = to_snake_case module_name
          /\ ctx_prefix context = firstn 3 (to_snake_case module_name)
          /\ ctx_fields context = fields
          /\ ctx_field_types context = SUPPORTED_TYPES
      | _ => True
      end
  end.

End ContextShape.

(* ================================================================== *)
(** * Strings: basic facts *)

Lemma str_eqb_eq (a b : str) : str_eqb a b = true <-> a = b.
Proof.
  revert b; induction a as [|x a IH]; intros [|y b]; simpl;
    try (split; [discriminate | discriminate]); try tauto.
  rewrite andb_true_iff, Z.eqb_eq, IH.
  split; [intros [-> ->]; reflexivity | intros H; inversion H; auto].
Qed.

Lemma str_eqb_refl (a : str) : str_eqb a a = true.
Proof. apply str_eqb_eq; reflexivity. Qed.

Lemma str_eqb_neq (a b : str) : str_eqb a b = false <-> a <> b.
Proof.
  rewrite <- str_eqb_eq. destruct (str_eqb a b); split; congruence.
Qed.

Lemma char_in_In (chars : list Z) (c : Z) :
  char_in chars c = true <-> In c chars.
Proof.
  unfold char_in. rewrite existsb_exists. split.
  - intros (x & Hx & Heq). apply Z.eqb_eq in Heq. subst. exact Hx.
  - intros H. exists c. split; [exact H | apply Z.eqb_refl].
Qed.

Lemma split_once_spec (sep : Z) (text before after : str) :
  split_once sep text = Some (before, after)
  <-> text = before ++ sep :: after /\ ~ In sep before.
Proof.
  revert before; induction text as [|c text IH]; intros before; simpl.
  - split; [discriminate|]. intros [H _]. destruct before; discriminate.
  - destruct (Z.eqb_spec c sep) as [->|Hne].
    + split.
      * intros H; inversion H; subst. split; [reflexivity | intros []].
      * intros [H Hnot]. destruct before as [|b before].
        -- simpl in H. inversion H; reflexivity.
        -- simpl in H. inversion H; subst. exfalso. apply Hnot. left; reflexivity.
    + destruct (split_once sep text) as [[b a]|] eqn:E.
      * split.
        -- intros H; inversion H; subst.
           destruct (proj1 (IH b) eq_refl) as [-> Hnot].
           split; [reflexivity|]. intros [Hc|Hin]; [congruence | tauto].
        -- intros [H Hnot]. destruct before as [|b' before'].
           ++ simpl in H. inversion H; congruence.
           ++ simpl in H. inversion H; subst.
              assert (Hs : Some (b, a) = Some (before', after)).
              { apply IH. split; [reflexivity|]. intros Hin. apply Hnot.
                right; exact Hin. }
              inversion Hs; reflexivity.
      * split; [discriminate|]. intros [H Hnot].
        destruct before as [|b' before'].
        -- simpl in H. inversion H; congruence.
        -- simpl in H. inversion H; subst.
           assert (Hs : None = Some (before', after)).
           { apply IH. split; [reflexivity|]. intros Hin. apply Hnot.
             right; exact Hin. }
           discriminate.
Qed.

Lemma split_once_None (sep : Z) (text : str) :
  split_once sep text = None <-> ~ In sep text.
Proof.
  induction text as [|c text IH]; simpl.
  - tauto.
  - destruct (Z.eqb_spec c sep) as [->|Hne].
    + split; [discriminate | intros H; exfalso; apply H; left; reflexivity].
    + destruct (split_once sep text) as [[b a]|].
      * split; [discriminate|]. intros H. exfalso.
        assert (Hn : ~ In sep text) by (intros Hin; apply H; right; exact Hin).
        apply IH in Hn. discriminate.
      * split; [|reflexivity]. intros _ [Hc|Hin]; [congruence|].
        apply (proj1 IH eq_refl). exact Hin.
Qed.

(* ================================================================== *)
(** * Normaliser: shape of a slug *)

Lemma az09_not_hyphen (c : Z) : az09 c = true -> c <> hyphen.
Proof. unfold az09, hyphen. intros H ->. discriminate. Qed.

Lemma az09_not_underscore (c : Z) : az09 c = true -> c <> underscore.
Proof. unfold az09, underscore. intros H ->. discriminate. Qed.

Lemma no_pair_app_l (h : Z) (a b : str) : no_pair h (a ++ b) -> no_pair h a.
Proof.
  induction a as [|x a IH]; simpl; [tauto|].
  intros [H1 H2]. split; [|auto].
  destruct a as [|y a]; [exact I|]. exact H1.
Qed.

Lemma no_pair_app_r (h : Z) (a b : str) : no_pair h (a ++ b) -> no_pair h b.
Proof.
  induction a as [|x a IH]; simpl; [tauto|]. intros [_ H]. auto.
Qed.

Lemma no_pair_spec (h : Z) (s : str) :
  no_pair h s -> forall front rest, s <> front ++ h :: h :: rest.
Proof.
  intros H front rest ->. apply no_pair_app_r in H.
  simpl in H. destruct H as [H _]. apply H. split; reflexivity.
Qed.

(** After the run replacement every character is a slug character, no
    hyphen is doubled, and inside a run the output does not open with one. *)
Lemma re_sub_runs_shape (text : str) (in_run : bool) :
  Forall slug_char (re_sub_runs not_az09 (lit "-") in_run text)
  /\ no_pair hyphen (re_sub_runs not_az09 (lit "-") in_run text)
  /\ (in_run = true ->
      forall rest, re_sub_runs not_az09 (lit "-") in_run text <> hyphen :: rest).
Proof.
  revert in_run; induction text as [|c text IH]; intros in_run;
    cbn [re_sub_runs].
  - repeat split; auto. intros _ rest; discriminate.
  - destruct (not_az09 c) eqn:Hn; unfold not_az09 in Hn.
    + destruct (IH true) as (F & P & Hd). specialize (Hd eq_refl).
      set (out := re_sub_runs not_az09 (lit "-") true text) in *.
      destruct in_run.
      * repeat split; auto.
      * change (lit "-" ++ out) with (hyphen :: out).
        split; [|split].
        -- constructor; [right; reflexivity | exact F].
        -- cbn [no_pair]. split; [|exact P].
           destruct out as [|y out']; [exact I|].
           intros [_ Hy]. subst y. exact (Hd out' eq_refl).
        -- discriminate.
    + apply negb_false_iff in Hn.
      destruct (IH false) as (F & P & _).
      split; [|split].
      * constructor; [left; exact Hn | exact F].
      * cbn [no_pair]. split; [|exact P].
        destruct (re_sub_runs not_az09 (lit "-") false text); [exact I|].
        intros [Hh _]. exact (az09_not_hyphen _ Hn Hh).
      * intros _ rest H. inversion H. exact (az09_not_hyphen _ Hn H1).
Qed.

Lemma re_sub_runs_keeps (text : str) (in_run : bool) :
  filter az09 (re_sub_runs not_az09 (lit "-") in_run text) = filter az09 text.
Proof.
  revert in_run; induction text as [|c text IH]; intros in_run;
    cbn [re_sub_runs filter]; auto.
  destruct (not_az09 c) eqn:Hn; unfold not_az09 in Hn.
  - apply negb_true_iff in Hn. rewrite Hn, filter_app, IH.
    destruct in_run; reflexivity.
  - apply negb_false_iff in Hn. cbn [filter]. rewrite Hn, IH. reflexivity.
Qed.

Lemma str_lstrip_suffix (chars : list Z) (text : str) :
  exists front, text = front ++ str_lstrip chars text
                /\ Forall (fun c => In c chars) front.
Proof.
  induction text as [|c text IH]; simpl.
  - exists []. split; auto.
  - destruct (char_in chars c) eqn:Hc.
    + destruct IH as (front & E & F). exists (c :: front). split.
      * simpl. congruence.
      * constructor; [apply char_in_In; exact Hc | exact F].
    + exists []. split; auto.
Qed.

Lemma str_lstrip_head (chars : list Z) (text : str) (c : Z) (rest : str) :
  str_lstrip chars text = c :: rest -> ~ In c chars.
Proof.
  induction text as [|x text IH]; simpl; [discriminate|].
  destruct (char_in chars x) eqn:Hx; [exact IH|].
  intros H; inversion H; subst. rewrite <- char_in_In. congruence.
Qed.

Lemma str_rstrip_prefix (chars : list Z) (text : str) :
  exists back, text = str_rstrip chars text ++ back
               /\ Forall (fun c => In c chars) back.
Proof.
  induction text as [|c text IH]; simpl.
  - exists []. split; auto.
  - destruct IH as (back & E & F).
    destruct (str_rstrip chars text) as [|k kept] eqn:R.
    + destruct (char_in chars c) eqn:Hc.
      * exists (c :: back). split; [simpl in *; congruence|].
        constructor; [apply char_in_In; exact Hc | exact F].
      * exists back. split; [simpl in *; congruence | exact F].
    + exists back. split; [simpl in *; congruence | exact F].
Qed.

Lemma str_rstrip_last (chars : list Z) (text front : str) (c : Z) :
  str_rstrip chars text = front ++ [c] -> ~ In c chars.
Proof.
  revert front; induction text as [|x text IH]; intros front; simpl.
  - destruct front; discriminate.
  - destruct (str_rstrip chars text) as [|k kept] eqn:R.
    + destruct (char_in chars x) eqn:Hx.
      * destruct front; discriminate.
      * destruct front as [|f [|f' front]]; try discriminate.
        intros H; inversion H; subst. rewrite <- char_in_In. congruence.
    + destruct front as [|f front].
      * discriminate.
      * intros H. injection H as _ H2. apply (IH front). exact H2.
Qed.

Lemma filter_all_out (p : Z -> bool) (s : str) :
  Forall (fun c => p c = false) s -> filter p s = [].
Proof.
  induction 1 as [|c s Hc _ IH]; simpl; [reflexivity|]. rewrite Hc. exact IH.
Qed.

Lemma str_strip_hyphen_keeps (text : str) :
  filter az09 (str_strip [hyphen] text) = filter az09 text.
Proof.
  unfold str_strip.
  destruct (str_lstrip_suffix [hyphen] text) as (front & E1 & F1).
  destruct (str_rstrip_prefix [hyphen] (str_lstrip [hyphen] text))
    as (back & E2 & F2).
  assert (drop : forall l, Forall (fun c => In c [hyphen]) l ->
                           filter az09 l = []).
  { intros l Hl. apply filter_all_out. eapply Forall_impl; [|exact Hl].
    intros c [<-|[]]. reflexivity. }
  rewrite E1 at 2. rewrite filter_app, (drop _ F1). simpl.
  rewrite E2 at 2. rewrite filter_app, (drop _ F2), app_nil_r. reflexivity.
Qed.

(** Stripping keeps a slug-shaped text slug-shaped and frees both ends. *)
Lemma str_strip_shape (text : str) :
  Forall slug_char text -> no_pair hyphen text ->
  Forall slug_char (str_strip [hyphen] text)
  /\ separated_by hyphen (str_strip [hyphen] text).
Proof.
  intros F P. unfold str_strip.
  destruct (str_lstrip_suffix [hyphen] text) as (front & E1 & _).
  destruct (str_rstrip_prefix [hyphen] (str_lstrip [hyphen] text))
    as (back & E2 & _).
  set (l := str_lstrip [hyphen] text) in *.
  set (r := str_rstrip [hyphen] l) in *.
  assert (Fl : Forall slug_char l).
  { rewrite E1 in F. apply Forall_app in F. tauto. }
  assert (Pl : no_pair hyphen l).
  { rewrite E1 in P. eapply no_pair_app_r; exact P. }
  split; [|split; [|split]].
  - rewrite E2 in Fl. apply Forall_app in Fl. tauto.
  - intros rest Hr. rewrite Hr in E2. simpl in E2.
    apply (@str_lstrip_head [hyphen] text _ _ E2). left; reflexivity.
  - intros init Hr. apply (@str_rstrip_last [hyphen] l init _ Hr).
    left; reflexivity.
  - apply no_pair_spec. rewrite E2 in Pl. eapply no_pair_app_l; exact Pl.
Qed.

(* ================================================================== *)
(** * Normaliser: words and gaps *)

Lemma re_sub_runs_word (in_run : bool) (w rest : str) :
  word w ->
  re_sub_runs not_az09 [hyphen] in_run (w ++ rest)
  = w ++ re_sub_runs not_az09 [hyphen] false rest.
Proof.
  intros [Hne F]. revert in_run. induction F as [|c w Hc F IH]; intros in_run.
  - congruence.
  - cbn [app re_sub_runs]. unfold not_az09 at 1. rewrite Hc. cbn [negb].
    f_equal. destruct w as [|d w]; [reflexivity|].
    apply IH. discriminate.
Qed.

Lemma re_sub_runs_gap (in_run : bool) (s rest : str) :
  gap s ->
  re_sub_runs not_az09 [hyphen] in_run (s ++ rest)
  = match s with
    | [] => re_sub_runs not_az09 [hyphen] in_run rest
    | _ => (if in_run then [] else [hyphen])
           ++ re_sub_runs not_az09 [hyphen] true rest
    end.
Proof.
  intros F. revert in_run. induction F as [|c s Hc F IH]; intros in_run.
  - reflexivity.
  - cbn [app re_sub_runs]. unfold not_az09 at 1. rewrite Hc. cbn [negb].
    f_equal. rewrite IH. destruct s; reflexivity.
Qed.

Lemma re_sub_runs_more (more : list (str * str)) (rest : str) :
  Forall gap_then_word more ->
  re_sub_runs not_az09 [hyphen] false
    (flat_map (fun p => fst p ++ snd p) more ++ rest)
  = flat_map (fun p => [hyphen] ++ snd p) more
    ++ re_sub_runs not_az09 [hyphen] false rest.
Proof.
  induction 1 as [|[s w] more (Hs & Hne & Hw) _ IH]; [reflexivity|].
  cbn [flat_map fst snd] in *. rewrite <- !app_assoc.
  rewrite (re_sub_runs_gap false s _ Hs).
  destruct s as [|c s]; [congruence|].
  rewrite (re_sub_runs_word true w _ Hw), IH. reflexivity.
Qed.

Lemma str_rstrip_drop (chars : list Z) (x t : str) :
  Forall (fun c => In c chars) t ->
  str_rstrip chars (x ++ t) = str_rstrip chars x.
Proof.
  intros Ft. induction x as [|c x IH]; cbn [app].
  - induction Ft as [|d t Hd _ IHt]; [reflexivity|].
    cbn [str_rstrip]. rewrite IHt. cbn [str_rstrip].
    apply char_in_In in Hd. rewrite Hd. reflexivity.
  - cbn [str_rstrip]. rewrite IH. reflexivity.
Qed.

Lemma str_rstrip_keep (chars : list Z) (x : str) (c : Z) :
  ~ In c chars -> str_rstrip chars (x ++ [c]) = x ++ [c].
Proof.
  intros Hc. induction x as [|d x IH]; cbn [app str_rstrip].
  - destruct (char_in chars c) eqn:E; [|reflexivity].
    apply char_in_In in E. contradiction.
  - rewrite IH. destruct (x ++ [c]) eqn:E; [|reflexivity].
    destruct x; discriminate.
Qed.

(** A text that ends with a character of [a-z0-9]. *)
Lemma word_ends (x w : str) :
  word w -> exists front c, x ++ w = front ++ [c] /\ az09 c = true.
Proof.
  intros [Hne F]. destruct (exists_last Hne) as (w' & c & ->).
  exists (x ++ w'), c. split; [apply app_assoc|].
  apply Forall_app in F as [_ F]. inversion F; assumption.
Qed.

Lemma words_end (x first : str) (more : list (str * str)) :
  word first -> Forall gap_then_word more ->
  exists front c,
    x ++ first ++ flat_map (fun p => [hyphen] ++ snd p) more = front ++ [c]
    /\ az09 c = true.
Proof.
  intros Hw Hm. revert x first Hw.
  induction Hm as [|[s w] more (_ & _ & Hw') _ IH]; intros x first Hw.
  - cbn [flat_map]. rewrite app_nil_r. apply word_ends. exact Hw.
  - cbn [flat_map snd].
    destruct (IH (x ++ first ++ [hyphen]) w Hw') as (front & c & E & Hc).
    exists front, c. split; [|exact Hc].
    rewrite <- E. rewrite <- !app_assoc. reflexivity.
Qed.

Lemma str_join_words (first : str) (more : list str) :
  first ++ flat_map (fun w => [hyphen] ++ w) more
  = str_join [hyphen] (first :: more).
Proof.
  revert first. induction more as [|w more IH]; intros first.
  - apply app_nil_r.
  - cbn [flat_map]. rewrite <- app_assoc.
    change (str_join [hyphen] (first :: w :: more))
      with (first ++ [hyphen] ++ str_join [hyphen] (w :: more)).
    rewrite <- IH. reflexivity.
Qed.

Lemma flat_map_snd {A} (f : str -> list A) (more : list (str * str)) :
  flat_map (fun p => f (snd p)) more = flat_map f (map snd more).
Proof.
  induction more as [|p more IH]; cbn [flat_map map]; [|rewrite IH]; reflexivity.
Qed.

(** Collapsing and stripping a text made of words and gaps leaves the
    words, joined by single hyphens. *)
Lemma strip_runs_words (lead first : str) (more : list (str * str))
                       (trail : str) :
  gap lead -> word first -> Forall gap_then_word more -> gap trail ->
  str_strip [hyphen]
    (re_sub_runs not_az09 [hyphen] false
       (lead ++ first ++ flat_map (fun p => fst p ++ snd p) more ++ trail))
  = str_join [hyphen] (first :: map snd more).
Proof.
  intros Hl Hw Hm Ht.
  set (body := first ++ flat_map (fun p => [hyphen] ++ snd p) more).
  assert (E : exists pre post,
             re_sub_runs not_az09 [hyphen] false
               (lead ++ first ++ flat_map (fun p => fst p ++ snd p) more ++ trail)
             = pre ++ body ++ post
             /\ Forall (fun c => In c [hyphen]) pre
             /\ Forall (fun c => In c [hyphen]) post).
  { assert (Et : exists post,
               re_sub_runs not_az09 [hyphen] false trail = post
               /\ Forall (fun c => In c [hyphen]) post).
    { rewrite <- (app_nil_r trail), (re_sub_runs_gap false trail [] Ht).
      destruct trail; eexists; (split; [reflexivity|]); repeat constructor. }
    destruct Et as (post & Ep & Fp).
    rewrite (re_sub_runs_gap false lead _ Hl).
    destruct lead as [|c lead].
    - exists [], post.
      rewrite (re_sub_runs_word false first _ Hw), (re_sub_runs_more _ _ Hm), Ep.
      unfold body. rewrite <- !app_assoc. repeat split; auto.
    - exists [hyphen], post.
      rewrite (re_sub_runs_word true first _ Hw), (re_sub_runs_more _ _ Hm), Ep.
      unfold body. rewrite <- !app_assoc. repeat split; auto.
      repeat constructor. }
  destruct E as (pre & post & -> & Fpre & Fpost).
  destruct (words_end [] first more Hw Hm) as (front & c & Eb & Hc).
  change (body = front ++ [c]) in Eb.
  assert (Hnc : ~ In c [hyphen]).
  { intros [H|[]]. exact (az09_not_hyphen c Hc (eq_sym H)). }
  unfold str_strip.
  assert (El : str_lstrip [hyphen] (pre ++ body ++ post) = body ++ post).
  { clear Fpost. induction Fpre as [|d pre Hd _ IH].
    - cbn [app]. destruct Hw as [Hne Fw]. unfold body.
      destruct first as [|a first]; [congruence|].
      cbn [app str_lstrip]. inversion Fw; subst.
      destruct (char_in [hyphen] a) eqn:Ea; [|reflexivity].
      apply char_in_In in Ea. destruct Ea as [Ea|[]].
      exfalso. apply (az09_not_hyphen a); [assumption | auto]. 
    - cbn [app str_lstrip]. apply char_in_In in Hd. rewrite Hd. exact IH. }
  rewrite El, (str_rstrip_drop [hyphen] body post Fpost), Eb.
  rewrite (str_rstrip_keep [hyphen] front c Hnc), <- Eb.
  unfold body. rewrite (flat_map_snd (fun w => [hyphen] ++ w)).
  apply str_join_words.
Qed.

Lemma strip_runs_gap (s : str) :
  gap s -> str_strip [hyphen] (re_sub_runs not_az09 [hyphen] false s) = [].
Proof.
  intros Hs. rewrite <- (app_nil_r s), (re_sub_runs_gap false s [] Hs).
  destruct s; reflexivity.
Qed.

Section NormalizerFacts.
Context {cm : CaseMapping}.

Lemma slugify_props (text : str) :
  Forall slug_char (slugify text) /\ separated_by hyphen (slugify text).
Proof.
  unfold slugify.
  destruct (re_sub_runs_shape (fold_accents (str_lower text)) false)
    as (F & P & _).
  apply str_strip_shape; assumption.
Qed.

Lemma slugify_keeps (text : str) :
  filter az09 (slugify text) = filter az09 (fold_accents (str_lower text)).
Proof.
  unfold slugify. rewrite str_strip_hyphen_keeps. apply re_sub_runs_keeps.
Qed.

Lemma slugify_words (text lead first : str) (more : list (str * str))
                    (trail : str) :
  fold_accents (str_lower text)
  = lead ++ first ++ flat_map (fun p => fst p ++ snd p) more ++ trail ->
  gap lead -> word first -> Forall gap_then_word more -> gap trail ->
  slugify text = str_join (lit "-") (first :: map snd more).
Proof.
  intros E Hl Hw Hm Ht. unfold slugify. rewrite E.
  apply strip_runs_words; assumption.
Qed.

Lemma slugify_no_word (text : str) :
  gap (fold_accents (str_lower text)) -> slugify text = [].
Proof. intros H. unfold slugify. apply strip_runs_gap. exact H. Qed.

(** C6.  For every input string the slug holds only characters of
    [a-z0-9-], neither starts nor ends with a hyphen and has no two
    consecutive hyphens.  Every run of characters outside [a-z0-9] of the
    lower-cased, accent-folded text becomes a single hyphen, and the runs
    at both ends disappear: when that text is words of [a-z0-9] with gaps
    between and around them, the slug is the words joined by ["-"]; when
    it has no word, the slug is empty; in all cases its characters of
    [a-z0-9] are kept in order. *)
Theorem slugify_shape (text : str) :
  Forall slug_char (slugify text)
  /\ (forall rest, slugify text <> hyphen :: rest)
  /\ (forall front, slugify text <> front ++ [hyphen])
  /\ (forall front rest, slugify text <> front ++ hyphen :: hyphen :: rest)
  /\ filter az09 (slugify text) = filter az09 (fold_accents (str_lower text))
  /\ (forall lead first more trail,
         fold_accents (str_lower text)
         = lead ++ first ++ flat_map (fun p => fst p ++ snd p) more ++ trail ->
         gap lead -> word first -> Forall gap_then_word more -> gap trail ->
         slugify text = str_join (lit "-") (first :: map snd more))
  /\ (gap (fold_accents (str_lower text)) -> slugify text = []).
Proof.
  destruct (slugify_props text) as (F & H1 & H2 & H3).
  repeat split; auto using slugify_keeps, slugify_no_word.
  intros. eapply slugify_words; eassumption.
Qed.

End NormalizerFacts.

(* ================================================================== *)
(** * Normaliser: snake case *)

Lemma str_replace_map (old new : Z) (text : str) :
  str_replace old [new] text = map (swap_char old new) text.
Proof.
  unfold str_replace, swap_char.
  induction text as [|c text IH]; simpl; [reflexivity|].
  rewrite IH. destruct (c =? old); reflexivity.
Qed.

Lemma swap_slug_char (c : Z) :
  slug_char c -> snake_char (swap_char hyphen underscore c).
Proof.
  unfold swap_char. intros [H| ->].
  - destruct (Z.eqb_spec c hyphen) as [E|_].
    + exfalso. exact (az09_not_hyphen _ H E).
    + left; exact H.
  - right. reflexivity.
Qed.

Lemma swap_to_underscore (c : Z) :
  slug_char c -> swap_char hyphen underscore c = underscore -> c = hyphen.
Proof.
  unfold swap_char. intros Hc. destruct (Z.eqb_spec c hyphen) as [E|_]; auto.
  intros ->. destruct Hc as [H|H]; [|exact H].
  exfalso. exact (az09_not_underscore _ H eq_refl).
Qed.

Lemma map_eq_cons_inv {A B} (f : A -> B) (l : list A) (y : B) (ys : list B) :
  map f l = y :: ys -> exists x xs, l = x :: xs /\ f x = y /\ map f xs = ys.
Proof.
  destruct l as [|x xs]; simpl; [discriminate|].
  intros H; inversion H. exists x, xs. auto.
Qed.

(** Swapping the separator character keeps the words separated. *)
Lemma swap_separated (s : str) :
  Forall slug_char s -> separated_by hyphen s ->
  separated_by underscore (map (swap_char hyphen underscore) s).
Proof.
  intros F (H1 & H2 & H3). split; [|split].
  - intros rest E. apply map_eq_cons_inv in E as (x & xs & -> & Hx & _).
    inversion F; subst. apply (H1 xs). f_equal.
    apply swap_to_underscore; assumption.
  - intros front E. apply map_eq_app in E as (l1 & l2 & -> & _ & E2).
    apply map_eq_cons_inv in E2 as (x & xs & -> & Hx & Hxs).
    apply map_eq_nil in Hxs. subst xs.
    apply Forall_app in F as [_ F]. inversion F; subst.
    apply (H2 l1). f_equal. f_equal.
    apply swap_to_underscore; assumption.
  - intros front rest E. apply map_eq_app in E as (l1 & l2 & -> & _ & E2).
    apply map_eq_cons_inv in E2 as (x & xs & -> & Hx & E2).
    apply map_eq_cons_inv in E2 as (y & ys & -> & Hy & _).
    apply Forall_app in F as [_ F]. inversion F as [|? ? Fx F']; subst.
    inversion F' as [|? ? Fy _]; subst.
    apply (H3 l1 ys).
    rewrite <- (swap_to_underscore _ Fx Hx) at 1.
    rewrite <- (swap_to_underscore _ Fy Hy) at 1. reflexivity.
Qed.

Section SnakeCase.
Context {cm : CaseMapping}.

Lemma to_snake_case_map (text : str) :
  to_snake_case text = map (swap_char hyphen underscore) (slugify text).
Proof. unfold to_snake_case. apply (str_replace_map hyphen underscore). Qed.

Lemma to_snake_case_props (text : str) :
  Forall snake_char (to_snake_case text)
  /\ separated_by underscore (to_snake_case text).
Proof.
  rewrite to_snake_case_map.
  destruct (slugify_props text) as (F & S). split.
  - apply Forall_map. eapply Forall_impl; [|exact F].
    intros c. apply swap_slug_char.
  - apply swap_separated; assumption.
Qed.

(** C7.  For every input string [to_snake_case] is [slugify] with every
    hyphen replaced by an underscore: it is the slug passed through
    [replace('-', '_')], that is, the slug with each hyphen turned into an
    underscore and every other character left in place. *)
Theorem to_snake_case_slugify (text : str) :
  to_snake_case text = str_replace hyphen (lit "_") (slugify text)
  /\ to_snake_case text
     = map (fun c => if c =? hyphen then underscore else c) (slugify text).
Proof.
  split; [reflexivity | apply to_snake_case_map].
Qed.

End SnakeCase.

(* ================================================================== *)
(** * Field parser *)

Lemma supported_In (tag : str) : supported tag = true <-> In tag supported_keys.
Proof.
  unfold supported. rewrite existsb_exists. split.
  - intros (k & Hk & E). apply str_eqb_eq in E. subst. exact Hk.
  - intros H. exists tag. split; [exact H | apply str_eqb_refl].
Qed.

Lemma supported_not_In (tag : str) :
  supported tag = false <-> ~ In tag supported_keys.
Proof.
  rewrite <- supported_In. destruct (supported tag); split; congruence.
Qed.

Section Parser.
Context {cm : CaseMapping}.

Lemma parse_field_no_separator (raw : str) (run : Run) :
  ~ In colon raw ->
  parse_field raw run = Raise (BadParameter (malformed_message raw)).
Proof.
  intros H. apply split_once_None in H.
  unfold parse_field. rewrite H. reflexivity.
Qed.

Lemma parse_field_unsupported (raw_name raw_type : str) (run : Run) :
  ~ In colon raw_name -> ~ In raw_type supported_keys ->
  parse_field (raw_name ++ colon :: raw_type) run
  = Raise (BadParameter (unsupported_message raw_type)).
Proof.
  intros Hn Ht. unfold parse_field.
  rewrite (proj2 (split_once_spec colon _ raw_name raw_type) (conj eq_refl Hn)).
  apply supported_not_In in Ht. rewrite Ht. reflexivity.
Qed.

Lemma parse_field_supported (raw_name raw_type : str) (run : Run) :
  ~ In colon raw_name -> In raw_type supported_keys ->
  parse_field (raw_name ++ colon :: raw_type) run
  = Ok {| name := to_snake_case raw_name;
          field_type := raw_type;
          label := to_label raw_name |}.
Proof.
  intros Hn Ht. unfold parse_field.
  rewrite (proj2 (split_once_spec colon _ raw_name raw_type) (conj eq_refl Hn)).
  apply supported_In in Ht. rewrite Ht. reflexivity.
Qed.

(** Every token is of exactly one of three kinds. *)
Lemma token_cases (raw : str) :
  ~ In colon raw
  \/ exists raw_name raw_type,
       raw = raw_name ++ colon :: raw_type /\ ~ In colon raw_name.
Proof.
  destruct (split_once colon raw) as [[n t]|] eqn:E.
  - right. exists n, t. apply split_once_spec. exact E.
  - left. apply split_once_None. exact E.
Qed.

Lemma token_split_unique (a b a' b' : str) :
  a ++ colon :: b = a' ++ colon :: b' ->
  ~ In colon a -> ~ In colon a' -> a = a' /\ b = b'.
Proof.
  intros E Ha Ha'.
  assert (H : Some (a, b) = Some (a', b')).
  { rewrite <- (proj2 (split_once_spec colon (a ++ colon :: b) a b)
                  (conj eq_refl Ha)).
    apply split_once_spec. split; [exact E | exact Ha']. }
  inversion H; auto.
Qed.

(** C3.  [parse_field] raises exactly when the token has no [':'] or when
    what follows its first [':'] is not a key of the registry, and returns
    a field in every other case.  Both failures are [BadParameter]; the
    message of the second ends with the tags of the registry, all of them,
    joined by [", "] in the order the registry declares them. *)
Theorem parse_field_errors (raw : str) (run : Run) :
  ((exists e, parse_field raw run = Raise e)
   <-> (~ In colon raw
        \/ exists raw_name raw_type,
             raw = raw_name ++ colon :: raw_type /\ ~ In colon raw_name
             /\ ~ In raw_type supported_keys))
  /\ ((exists field, parse_field raw run = Ok field)
      <-> exists raw_name raw_type,
            raw = raw_name ++ colon :: raw_type /\ ~ In colon raw_name
            /\ In raw_type supported_keys)
  /\ (~ In colon raw ->
      parse_field raw run = Raise (BadParameter (malformed_message raw)))
  /\ (forall raw_name raw_type,
        raw = raw_name ++ colon :: raw_type -> ~ In colon raw_name ->
        ~ In raw_type supported_keys ->
        parse_field raw run = Raise (BadParameter (unsupported_message raw_type))
        /\ unsupported_message raw_type
           = lit "Type '" ++ raw_type ++ lit "' non support" ++ [233]
               ++ lit ". Types valides: "
               ++ lit "text, textarea, image, number, wysiwyg, select, date")
  /\ supported_keys
     = [lit "text"; lit "textarea"; lit "image"; lit "number"; lit "wysiwyg";
        lit "select"; lit "date"]
  /\ (forall tag, In tag supported_keys
                  <-> exists config, registry_get tag SUPPORTED_TYPES = Some config).
Proof.
  split; [|split; [|split; [|split; [|split]]]].
  - split.
    + intros [e He]. destruct (token_cases raw) as [H|(n & t & -> & Hn)];
        [left; exact H|].
      right. exists n, t. repeat split; auto.
      intros Ht. rewrite (parse_field_supported _ _ run Hn Ht) in He. discriminate.
    + intros [H|(n & t & -> & Hn & Ht)].
      * eexists. apply parse_field_no_separator. exact H.
      * eexists. apply parse_field_unsupported; assumption.
  - split.
    + intros [f Hf]. destruct (token_cases raw) as [H|(n & t & -> & Hn)].
      * rewrite (parse_field_no_separator _ run H) in Hf. discriminate.
      * exists n, t. repeat split; auto.
        destruct (supported t) eqn:Ht; [apply supported_In; exact Ht|].
        apply supported_not_In in Ht.
        rewrite (parse_field_unsupported _ _ run Hn Ht) in Hf. discriminate.
    + intros (n & t & -> & Hn & Ht). eexists.
      apply parse_field_supported; assumption.
  - apply parse_field_no_separator.
  - intros n t -> Hn Ht. split; [apply parse_field_unsupported; assumption|].
    reflexivity.
  - reflexivity.
  - intros tag. split.
    + intros H. simpl in H.
      repeat (destruct H as [<-|H]; [eexists; reflexivity|]). destruct H.
    + intros [config H]. apply supported_In. unfold supported, supported_keys.
      revert H. generalize SUPPORTED_TYPES.
      induction l as [|[k v] l IH]; simpl; [discriminate|].
      destruct (str_eqb tag k); simpl; auto.
Qed.

End Parser.

Lemma az09_ascii (c : Z) : az09 c = true -> 48 <= c <= 122.
Proof. unfold az09. lia. Qed.

Lemma snake_char_ascii (c : Z) : snake_char c -> 0 <= c < 128.
Proof.
  intros [H| ->]; [apply az09_ascii in H; lia | unfold underscore; lia].
Qed.

Lemma snake_char_not_upper (c : Z) : snake_char c -> ~ (65 <= c <= 90).
Proof.
  intros [H| ->]; [unfold az09 in H; lia | unfold underscore; lia].
Qed.

Lemma parse_field_inv {cm : CaseMapping} (raw : str) (run : Run) (field : Field) :
  parse_field raw run = Ok field ->
  exists raw_name raw_type,
    raw = raw_name ++ colon :: raw_type /\ ~ In colon raw_name
    /\ In raw_type supported_keys
    /\ field = {| name := to_snake_case raw_name;
                  field_type := raw_type;
                  label := to_label raw_name |}.
Proof.
  intros H. destruct (token_cases raw) as [Hc|(n & t & -> & Hn)].
  - rewrite (parse_field_no_separator _ run Hc) in H. discriminate.
  - exists n, t. destruct (supported t) eqn:Ht.
    + apply supported_In in Ht.
      rewrite (parse_field_supported _ _ run Hn Ht) in H.
      inversion H. auto.
    + apply supported_not_In in Ht.
      rewrite (parse_field_unsupported _ _ run Hn Ht) in H. discriminate.
Qed.

(** C4.  A token [raw_name:raw_type] whose type is a key of the registry
    parses to the field named [to_snake_case raw_name], of type [raw_type]
    unchanged, labelled [to_label raw_name]; ["Prix:number"] parses to
    [Field(name="prix", field_type="number", label="Prix")]. *)
Theorem parse_field_result :
  (forall (cm : CaseMapping) (raw_name raw_type : str) (run : Run),
      ~ In colon raw_name -> In raw_type supported_keys ->
      parse_field (raw_name ++ colon :: raw_type) run
      = Ok {| name := to_snake_case raw_name;
              field_type := raw_type;
              label := to_label raw_name |})
  /\ (forall run : Run,
         parse_field (lit "Prix:number") run
         = Ok {| name := lit "prix";
                 field_type := lit "number";
                 label := lit "Prix" |}).
Proof.
  split.
  - intros cm raw_name raw_type run. apply parse_field_supported.
  - intros run. reflexivity.
Qed.

Lemma parse_field_result_witness :
  parse_field (lit "date-de-fin" ++ colon :: lit "date") run0
  = Ok {| name := to_snake_case (lit "date-de-fin");
          field_type := lit "date";
          label := to_label (lit "date-de-fin") |}.
Proof.
  apply (proj1 parse_field_result latin1_case (lit "date-de-fin") (lit "date")).
  - simpl. unfold colon. intuition discriminate.
  - simpl. tauto.
Defined.

(** C5, as the code has it.  The name of a parsed field holds only
    characters of [a-z0-9_] (so it is ASCII without capitals), neither
    starts nor ends with an underscore and has no two consecutive
    underscores, and its type is a key of the registry.  The name may be
    empty. *)
Theorem parse_field_invariant (cm : CaseMapping) (raw : str) (run : Run)
                              (field : Field) :
  parse_field raw run = Ok field ->
  Forall snake_char (name field)
  /\ Forall (fun c => 0 <= c < 128 /\ ~ (65 <= c <= 90)) (name field)
  /\ (forall rest, name field <> underscore :: rest)
  /\ (forall front, name field <> front ++ [underscore])
  /\ (forall front rest,
         name field <> front ++ underscore :: underscore :: rest)
  /\ In (field_type field) supported_keys.
Proof.
  intros H. apply parse_field_inv in H as (n & t & _ & _ & Ht & ->). simpl.
  destruct (to_snake_case_props n) as (F & H1 & H2 & H3).
  repeat split; auto.
  eapply Forall_impl; [|exact F].
  intros c Hc. split; [apply snake_char_ascii | apply snake_char_not_upper];
    exact Hc.
Qed.

Lemma parse_field_invariant_witness :
  parse_field (lit "Prix TTC:number") run0
  = Ok {| name := lit "prix_ttc";
          field_type := lit "number";
          label := lit "Prix Ttc" |}
  /\ Forall snake_char (lit "prix_ttc")
  /\ In (lit "number") supported_keys.
Proof.
  assert (H : parse_field (lit "Prix TTC:number") run0
              = Ok {| name := lit "prix_ttc";
                      field_type := lit "number";
                      label := lit "Prix Ttc" |}) by reflexivity.
  destruct (parse_field_invariant latin1_case _ run0 _ H)
    as (F & _ & _ & _ & _ & T).
  split; [exact H | split; [exact F | exact T]].
Defined.

(** C5, against the claim as written: the token [":text"] parses, and the
    name of the field it yields is empty. *)
Lemma parse_field_empty_name :
  parse_field (lit ":text") run0
  = Ok {| name := []; field_type := lit "text"; label := [] |}
  /\ ~ (forall raw field, parse_field raw run0 = Ok field -> name field <> []).
Proof.
  split; [reflexivity|].
  intros H. apply (H (lit ":text") _ eq_refl). reflexivity.
Qed.

(* ================================================================== *)
(** * Case mapping and parser on examples *)

Lemma slugify_shape_witness :
  slugify (lit "Caf" ++ [233] ++ lit "  M" ++ [252] ++ lit "nich!")
  = str_join (lit "-") [lit "cafe"; lit "munich"].
Proof.
  apply (proj1 (proj2 (proj2 (proj2 (proj2 (proj2
           (slugify_shape
              (lit "Caf" ++ [233] ++ lit "  M" ++ [252] ++ lit "nich!")))))))
         [] (lit "cafe") [(lit "  ", lit "munich")] (lit "!")).
  - reflexivity.
  - constructor.
  - split; [discriminate | repeat (apply Forall_cons; [reflexivity|])];
      constructor.
  - apply Forall_cons; [|constructor]. split; [|split; [discriminate|split]].
    + repeat (apply Forall_cons; [reflexivity|]). constructor.
    + discriminate.
    + repeat (apply Forall_cons; [reflexivity|]). constructor.
  - repeat (apply Forall_cons; [reflexivity|]). constructor.
Defined.

Example slugify_cafe :
  slugify (lit "Caf" ++ [233] ++ lit " M" ++ [252] ++ lit "nich  -- x")
  = lit "cafe-munich-x".
Proof. reflexivity. Qed.

Example slugify_unmapped :
  (* U+00F1 is not in any folded class: it separates *)
  slugify (lit "a" ++ [241] ++ lit "o") = lit "a-o".
Proof. reflexivity. Qed.

Example to_label_words :
  to_label (lit "prix-ttc_net") = lit "Prix Ttc Net".
Proof. reflexivity. Qed.

Example parse_field_currency :
  parse_field (lit "prix-ttc:currency") run0
  = Raise (BadParameter
             (lit "Type 'currency' non support" ++ [233]
                ++ lit ". Types valides: text, textarea, image, number, wysiwyg, select, date")).
Proof. reflexivity. Qed.

Example parse_field_noseparator :
  parse_field (lit "noseparator") run0
  = Raise (BadParameter (lit "Format invalide: noseparator. Utilisez 'nom:type'")).
Proof. reflexivity. Qed.

Example parse_field_second_colon :
  (* everything after the first ':' is the type *)
  parse_field (lit "a:b:text") run0
  = Raise (BadParameter (unsupported_message (lit "b:text"))).
Proof. reflexivity. Qed.

(* ================================================================== *)
(** * The [Py] monad: calls that never read the process *)

Lemma ret_independent {A} (a : A) : run_independent (ret a).
Proof. intros r1 r2. reflexivity. Qed.

Lemma raise_independent {A} (e : exception) : run_independent (@raise A e).
Proof. intros r1 r2. reflexivity. Qed.

Lemma bind_independent {A B} (m : Py A) (k : A -> Py B) :
  run_independent m -> (forall a, run_independent (k a)) ->
  run_independent (bind m k).
Proof.
  intros Hm Hk r1 r2. unfold bind. rewrite (Hm r1 r2).
  destruct (m r2); [apply Hk | reflexivity].
Qed.

Lemma for_each_independent {A B} (body : A -> Py B) (items : list A) :
  (forall x, run_independent (body x)) -> run_independent (for_each body items).
Proof.
  intros Hb. induction items as [|x items IH]; simpl.
  - apply ret_independent.
  - apply bind_independent; [apply Hb|]. intros y.
    apply bind_independent; [exact IH|]. intros ys. apply ret_independent.
Qed.

Lemma bind_ok {A B} (m : Py A) (k : A -> Py B) (run : Run) (a : A) :
  m run = Ok a -> bind m k run = k a run.
Proof. intros H. unfold bind. rewrite H. reflexivity. Qed.

Create HintDb py.

#[local] Hint Resolve ret_independent raise_independent : py.

(* ================================================================== *)
(** * UTF-8 encoding *)

Lemma utf8_cp_ok (c : Z) :
  is_surrogate c = false -> exists bs, utf8_cp c = Ok bs.
Proof.
  intros H. unfold utf8_cp. rewrite H.
  destruct (c <? 128); [eexists; reflexivity|].
  destruct (c <? 2048); [eexists; reflexivity|].
  destruct (c <? 65536); eexists; reflexivity.
Qed.

Lemma utf8_cp_surrogate (c : Z) :
  is_surrogate c = true -> utf8_cp c = Raise (UnicodeEncodeError c).
Proof.
  intros H. unfold utf8_cp. rewrite H. unfold is_surrogate in H.
  destruct (Z.ltb_spec c 128); [lia|].
  destruct (Z.ltb_spec c 2048); [lia|]. reflexivity.
Qed.

(** Encoding succeeds exactly on the texts without surrogates. *)
Lemma str_encode_ok (text : str) :
  (exists data, str_encode text = Ok data) <-> encodable text.
Proof.
  unfold encodable. induction text as [|c text IH]; simpl.
  - split; [constructor | intros _; eexists; reflexivity].
  - destruct (is_surrogate c) eqn:Hc.
    + rewrite (utf8_cp_surrogate c Hc). split.
      * intros [d Hd]. discriminate.
      * intros H. inversion H; subst. congruence.
    + destruct (utf8_cp_ok c Hc) as [bs ->]. split.
      * intros [d Hd]. constructor; [exact Hc|]. apply IH.
        destruct (str_encode text); [eexists; reflexivity | discriminate].
      * intros H. inversion H; subst.
        destruct (proj2 IH H3) as [more ->]. eexists; reflexivity.
Qed.

Lemma encodable_app (a b : str) :
  encodable (a ++ b) <-> encodable a /\ encodable b.
Proof. apply Forall_app. Qed.

Lemma encodable_lit_underscore : encodable (lit "_").
Proof. repeat constructor. Qed.

(** Encoding stops at the first surrogate and raises on it. *)
Lemma str_encode_stops (before : str) (c : Z) (after : str) :
  encodable before -> is_surrogate c = true ->
  str_encode (before ++ c :: after) = Raise (UnicodeEncodeError c).
Proof.
  intros F Hc. induction F as [|d before Hd _ IH]; cbn [app str_encode].
  - rewrite (utf8_cp_surrogate c Hc). reflexivity.
  - destruct (utf8_cp_ok d Hd) as [bs ->]. rewrite IH. reflexivity.
Qed.

(** A text can be encoded, or has a first surrogate. *)
Lemma first_surrogate (text : str) :
  encodable text
  \/ exists before c after,
       text = before ++ c :: after
       /\ encodable before /\ is_surrogate c = true.
Proof.
  induction text as [|d text [IH|(before & c & after & -> & F & Hc)]].
  - left. constructor.
  - destruct (is_surrogate d) eqn:Hd.
    + right. exists [], d, text. repeat split; auto. constructor.
    + left. constructor; assumption.
  - destruct (is_surrogate d) eqn:Hd.
    + right. exists [], d, (before ++ c :: after). repeat split; auto.
      constructor.
    + right. exists (d :: before), c, after. repeat split; auto.
      constructor; assumption.
Qed.

(* ================================================================== *)
(** * MD5: shape of the hexadecimal digest *)

Lemma le32_bytes (w : Z) :
  Forall is_byte (MD5.le32 w) /\ List.length (MD5.le32 w) = 4%nat.
Proof.
  split; [|reflexivity]. unfold MD5.le32.
  repeat (apply Forall_cons; [apply Z.mod_pos_bound; lia|]). constructor.
Qed.

Lemma digest_bytes (msg : bytes) :
  Forall is_byte (MD5.digest msg) /\ List.length (MD5.digest msg) = 16%nat.
Proof.
  unfold MD5.digest.
  generalize (MD5.blocks (Nat.div (List.length (MD5.pad msg)) 64)
                         MD5.init (MD5.pad msg)).
  intros st. split.
  - repeat (apply Forall_app; split); apply le32_bytes.
  - reflexivity.
Qed.

Lemma hexdigit_lower_hex (n : Z) : 0 <= n < 16 -> lower_hex (MD5.hexdigit n).
Proof.
  intros H. unfold MD5.hexdigit, lower_hex.
  destruct (Z.ltb_spec n 10); lia.
Qed.

Lemma hex_of_byte_shape (b : Z) :
  is_byte b -> Forall lower_hex (MD5.hex_of_byte b).
Proof.
  unfold is_byte. intros H. unfold MD5.hex_of_byte.
  apply Forall_cons; [|apply Forall_cons; [|constructor]];
    apply hexdigit_lower_hex.
  - split; [apply Z.div_pos; lia | apply Z.div_lt_upper_bound; lia].
  - apply Z.mod_pos_bound; lia.
Qed.

Lemma hexdigest_shape (msg : bytes) :
  Forall lower_hex (MD5.hexdigest msg)
  /\ List.length (MD5.hexdigest msg) = 32%nat.
Proof.
  unfold MD5.hexdigest. destruct (digest_bytes msg) as [F L].
  revert F L. generalize (MD5.digest msg) as d. intros d F L. split.
  - clear L. induction F as [|b d Hb _ IH]; cbn [flat_map]; [constructor|].
    apply Forall_app. split; [apply hex_of_byte_shape; exact Hb | exact IH].
  - assert (H : forall l, List.length (flat_map MD5.hex_of_byte l)
                          = (2 * List.length l)%nat).
    { induction l as [|x l IHl]; simpl; [reflexivity|]. rewrite IHl. lia. }
    rewrite H, L. reflexivity.
Qed.

Lemma hash_suffix_shape (msg : bytes) :
  Forall lower_hex (firstn 8 (MD5.hexdigest msg))
  /\ List.length (firstn 8 (MD5.hexdigest msg)) = 8%nat.
Proof.
  destruct (hexdigest_shape msg) as [F L]. split.
  - rewrite <- (firstn_skipn 8 (MD5.hexdigest msg)) in F.
    apply Forall_app in F. tauto.
  - rewrite length_firstn, L. reflexivity.
Qed.

(* ================================================================== *)
(** * Key generators *)

Lemma md5_hex_independent (text : str) : run_independent (md5_hex text).
Proof. intros r1 r2. reflexivity. Qed.

Lemma generate_field_key_independent (module_name field_name : str) :
  run_independent (generate_field_key module_name field_name).
Proof.
  unfold generate_field_key.
  apply bind_independent; [apply md5_hex_independent | auto with py].
Qed.

Lemma generate_group_key_independent (module_name : str) :
  run_independent (generate_group_key module_name).
Proof.
  unfold generate_group_key.
  apply bind_independent; [apply md5_hex_independent | auto with py].
Qed.

Lemma generate_field_key_eq (module_name field_name : str) (run : Run) :
  generate_field_key module_name field_name run
  = match str_encode (module_name ++ lit "_" ++ field_name) with
    | Ok data => Ok (lit "field_" ++ firstn 8 (MD5.hexdigest data))
    | Raise e => Raise e
    end.
Proof.
  unfold generate_field_key, bind, md5_hex, ret.
  destruct (str_encode _); reflexivity.
Qed.

Lemma generate_group_key_eq (module_name : str) (run : Run) :
  generate_group_key module_name run
  = match str_encode module_name with
    | Ok data => Ok (lit "group_" ++ firstn 8 (MD5.hexdigest data))
    | Raise e => Raise e
    end.
Proof.
  unfold generate_group_key, bind, md5_hex, ret.
  destruct (str_encode _); reflexivity.
Qed.

(** C1.  The key generators are deterministic maps of their arguments: in
    any two processes, whatever their clock and hash seed, the same
    arguments give the same outcome, the same string or the same
    exception. *)
Theorem key_generators_deterministic
  (module_name field_name : str) (run1 run2 : Run) :
  generate_field_key module_name field_name run1
  = generate_field_key module_name field_name run2
  /\ generate_group_key module_name run1 = generate_group_key module_name run2.
Proof.
  split;
    [apply generate_field_key_independent | apply generate_group_key_independent].
Qed.

(** C2, as the code has it.  When the module and field identities can be
    encoded in UTF-8, [generate_field_key] returns ["field_"] followed by
    the first 8 characters of the hexadecimal MD5 digest of
    [module_name + "_" + field_name], and [generate_group_key] returns
    ["group_"] followed by the first 8 characters of the digest of the
    module identity; these 8 characters are lower-case hexadecimal digits.
    The generators return at all only on such identities: on any other,
    each raises [UnicodeEncodeError] on the first surrogate of the text it
    hashes. *)
Theorem key_shape (module_name field_name : str) (run : Run) :
  (encodable module_name -> encodable field_name ->
   exists data suffix,
     str_encode (module_name ++ lit "_" ++ field_name) = Ok data
     /\ suffix = firstn 8 (MD5.hexdigest data)
     /\ generate_field_key module_name field_name run
        = Ok (lit "field_" ++ suffix)
     /\ List.length suffix = 8%nat /\ Forall lower_hex suffix)
  /\ (encodable module_name ->
      exists data suffix,
        str_encode module_name = Ok data
        /\ suffix = firstn 8 (MD5.hexdigest data)
        /\ generate_group_key module_name run = Ok (lit "group_" ++ suffix)
        /\ List.length suffix = 8%nat /\ Forall lower_hex suffix)
  /\ ((exists key, generate_field_key module_name field_name run = Ok key)
      -> encodable module_name /\ encodable field_name)
  /\ ((exists key, generate_group_key module_name run = Ok key)
      -> encodable module_name)
  /\ (~ (encodable module_name /\ encodable field_name) ->
      exists before c after,
        module_name ++ lit "_" ++ field_name = before ++ c :: after
        /\ encodable before /\ is_surrogate c = true
        /\ generate_field_key module_name field_name run
           = Raise (UnicodeEncodeError c))
  /\ (~ encodable module_name ->
      exists before c after,
        module_name = before ++ c :: after
        /\ encodable before /\ is_surrogate c = true
        /\ generate_group_key module_name run = Raise (UnicodeEncodeError c)).
Proof.
  split; [|split; [|split; [|split; [|split]]]].
  - intros Hm Hf.
    assert (He : encodable (module_name ++ lit "_" ++ field_name)).
    { apply encodable_app. split; [exact Hm|]. apply encodable_app.
      split; [apply encodable_lit_underscore | exact Hf]. }
    apply str_encode_ok in He as [data Hd].
    exists data, (firstn 8 (MD5.hexdigest data)).
    rewrite generate_field_key_eq, Hd.
    destruct (hash_suffix_shape data). auto.
  - intros Hm. apply str_encode_ok in Hm as [data Hd].
    exists data, (firstn 8 (MD5.hexdigest data)).
    rewrite generate_group_key_eq, Hd.
    destruct (hash_suffix_shape data). auto.
  - intros [key H]. rewrite generate_field_key_eq in H.
    assert (He : encodable (module_name ++ lit "_" ++ field_name)).
    { apply str_encode_ok. destruct (str_encode _); [eexists; reflexivity|].
      discriminate. }
    apply encodable_app in He as [Hm He].
    apply encodable_app in He as [_ Hf]. auto.
  - intros [key H]. rewrite generate_group_key_eq in H.
    apply str_encode_ok. destruct (str_encode _); [eexists; reflexivity|].
    discriminate.
  - intros Hn.
    destruct (first_surrogate (module_name ++ lit "_" ++ field_name))
      as [He|(before & c & after & E & F & Hc)].
    + exfalso. apply Hn.
      apply encodable_app in He as [Hm He].
      apply encodable_app in He as [_ Hf]. auto.
    + exists before, c, after. repeat split; auto.
      rewrite generate_field_key_eq, E, (str_encode_stops before c after F Hc).
      reflexivity.
  - intros Hn.
    destruct (first_surrogate module_name)
      as [He|(before & c & after & E & F & Hc)]; [contradiction|].
    exists before, c, after. repeat split; auto.
    rewrite generate_group_key_eq, E, (str_encode_stops before c after F Hc).
    reflexivity.
Qed.

Lemma key_shape_witness :
  generate_field_key (lit "Produit") (lit "titre") run0
  = Ok (lit "field_b423be5d")
  /\ generate_group_key (lit "Produit") run0 = Ok (lit "group_e30e2cb9").
Proof.
  destruct (key_shape (lit "Produit") (lit "titre") run0) as (Hf & Hg & _).
  assert (Em : encodable (lit "Produit")) by (repeat constructor).
  assert (Ef : encodable (lit "titre")) by (repeat constructor).
  destruct (Hf Em Ef) as (d & s & Hd & -> & Hk & _).
  destruct (Hg Em) as (d' & s' & Hd' & -> & Hk' & _).
  vm_compute in Hd. injection Hd as <-.
  vm_compute in Hd'. injection Hd' as <-.
  split; [rewrite Hk | rewrite Hk']; vm_compute; reflexivity.
Defined.

(** C2, against the claim as written: a module identity that holds the
    lone surrogate U+DC80 makes both generators raise [UnicodeEncodeError]
    instead of returning a key. *)
Lemma key_generators_raise_on_surrogate :
  generate_group_key [56448] run0 = Raise (UnicodeEncodeError 56448)
  /\ generate_field_key [56448] (lit "titre") run0
     = Raise (UnicodeEncodeError 56448).
Proof. split; reflexivity. Qed.

(** C10.  The identity string hashed for a field key joins module and
    field identity with one ['_'], so it does not determine the pair: the
    distinct pairs [("a_b", "c")] and [("a", "b_c")] give the same identity
    string, hence the same full digest and the same field key, and so do
    any two pairs with equal identity strings. *)
Theorem field_key_collision :
  (lit "a_b", lit "c") <> (lit "a", lit "b_c")
  /\ lit "a_b" ++ lit "_" ++ lit "c" = lit "a" ++ lit "_" ++ lit "b_c"
  /\ (forall run,
         md5_hex (lit "a_b" ++ lit "_" ++ lit "c") run
         = md5_hex (lit "a" ++ lit "_" ++ lit "b_c") run)
  /\ (forall run,
         generate_field_key (lit "a_b") (lit "c") run
         = generate_field_key (lit "a") (lit "b_c") run)
  /\ (forall run, generate_field_key (lit "a_b") (lit "c") run
                  = Ok (lit "field_8d28cddc"))
  /\ (forall m f m' f' run,
         m ++ lit "_" ++ f = m' ++ lit "_" ++ f' ->
         generate_field_key m f run = generate_field_key m' f' run).
Proof.
  split; [discriminate|].
  split; [reflexivity|].
  split; [reflexivity|].
  split; [reflexivity|].
  split; [intros run; vm_compute; reflexivity|].
  intros m f m' f' run E. rewrite !generate_field_key_eq, E. reflexivity.
Qed.

(* ================================================================== *)
(** * Schema builder *)

Lemma build_acf_field_ok (field : Field) (module_name : str) (order : Z)
                         (run : Run) (key : str) :
  In (field_type field) supported_keys ->
  generate_field_key module_name (name field) run = Ok key ->
  exists entry,
    build_acf_field field module_name order run = Ok entry
    /\ entry_of module_name run field entry.
Proof.
  destruct field as [n t l]. cbn [name field_type label]. intros Hin Hk.
  assert (Hnot : forall a b : str, str_eqb a b = false -> a <> b)
    by (intros a b; apply str_eqb_neq).
  unfold supported_keys in Hin. cbn [map fst SUPPORTED_TYPES] in Hin.
  repeat (destruct Hin as [<-|Hin];
          [ eexists; split;
            [ unfold build_acf_field; cbn [name field_type label];
              erewrite bind_ok by reflexivity;
              erewrite bind_ok by reflexivity;
              cbv beta iota;
              erewrite bind_ok by exact Hk;
              reflexivity
            | eexists; eexists; exists key; cbn [name field_type label];
              split; [reflexivity|];
              split; [reflexivity|];
              split; [exact Hk|];
              split; [reflexivity|];
              split; [reflexivity|];
              split; cbn; intuition discriminate ]
          |]).
  destruct Hin.
Qed.

Lemma build_acf_field_inv (field : Field) (module_name : str) (order : Z)
                          (run : Run) (entry : dict) :
  build_acf_field field module_name order run = Ok entry ->
  In (field_type field) supported_keys
  /\ exists key, generate_field_key module_name (name field) run = Ok key.
Proof.
  unfold build_acf_field, bind at 1, type_config_of.
  destruct (registry_get (field_type field) SUPPORTED_TYPES) as [config|] eqn:R;
    [|discriminate].
  intros H. split.
  - apply supported_In. unfold supported, supported_keys.
    revert R. generalize SUPPORTED_TYPES.
    induction l as [|[k v] l IH]; simpl; [discriminate|].
    destruct (str_eqb (field_type field) k); simpl; auto.
  - cbn [ret] in H. unfold bind at 1 in H.
    destruct (dict_pop (lit "type") config run) as [[kind rest]|]; [|discriminate].
    unfold bind at 1 in H.
    destruct (generate_field_key module_name (name field) run) as [key|];
      [exists key; reflexivity | discriminate].
Qed.

Lemma for_each_ok {A B} (body : A -> Py B) (run : Run) (items : list A)
                  (results : list B) :
  for_each body items run = Ok results
  <-> Forall2 (fun x y => body x run = Ok y) items results.
Proof.
  revert results; induction items as [|x items IH]; intros results; simpl.
  - split.
    + intros H; inversion H; constructor.
    + intros H; inversion H; reflexivity.
  - unfold bind at 1. destruct (body x run) as [y|e] eqn:Hy.
    + unfold bind at 1.
      destruct (for_each body items run) as [ys|e] eqn:Hys.
      * split.
        -- intros H; inversion H; subst. constructor; [exact Hy|].
           apply IH. reflexivity.
        -- intros H; inversion H; subst.
           assert (E : Ok ys = Ok l') by (apply IH; assumption).
           match goal with
           | Hb : body x run = Ok ?z |- _ => rewrite Hy in Hb; injection Hb as <-
           end.
           injection E as <-. reflexivity.
      * split; [discriminate|]. intros H; inversion H; subst.
        assert (E : @Raise (list B) e = Ok l') by (apply IH; assumption).
        discriminate.
    + split; [discriminate|]. intros H; inversion H; subst. congruence.
Qed.

Lemma Forall2_enumerate {A B} (R : A -> B -> Prop) (start : Z)
                        (items : list A) (results : list B) :
  Forall2 (fun p y => R (snd p) y) (enumerate_from start items) results
  <-> Forall2 R items results.
Proof.
  revert start results; induction items as [|x items IH];
    intros start results; simpl.
  - split; intros H; inversion H; constructor.
  - split; intros H; inversion H; subst; constructor; auto;
      eapply IH; eassumption.
Qed.

(** The document, given its three computed parts. *)
Lemma build_acf_json_eq (module_name slug : str) (fields : list Field)
                        (run : Run) :
  build_acf_json module_name slug fields run
  = match for_each (fun '(i, field) => build_acf_field field module_name i)
                   (enumerate_from 0 fields) run with
    | Raise e => Raise e
    | Ok acf_fields =>
        match generate_group_key module_name run with
        | Raise e => Raise e
        | Ok key =>
            Ok [ (lit "key", PStr key);
                 (lit "title", PStr (lit "Champs " ++ module_name));
                 (lit "fields", PList (map PDict acf_fields));
                 (lit "location", location_rule slug);
                 (lit "menu_order", PInt 0);
                 (lit "position", PStr (lit "normal"));
                 (lit "style", PStr (lit "default"));
                 (lit "label_placement", PStr (lit "top"));
                 (lit "instruction_placement", PStr (lit "label"));
                 (lit "hide_on_screen", PStr (lit ""));
                 (lit "active", PBool true);
                 (lit "description",
                   PStr (lit "Groupe de champs pour le module " ++ module_name));
                 (lit "show_in_rest", PInt 1);
                 (lit "modified", PInt (unix_time run)) ]
        end
    end.
Proof.
  unfold build_acf_json, bind at 1.
  destruct (for_each _ _ run) as [acf|e]; [|reflexivity].
  unfold bind at 1.
  destruct (generate_group_key module_name run) as [key|e]; reflexivity.
Qed.

Lemma generate_field_key_ok (module_name field_name : str) (run : Run) :
  (exists key, generate_field_key module_name field_name run = Ok key)
  <-> encodable module_name /\ encodable field_name.
Proof.
  rewrite generate_field_key_eq.
  assert (H : encodable (module_name ++ lit "_" ++ field_name)
              <-> encodable module_name /\ encodable field_name).
  { rewrite !encodable_app. pose proof encodable_lit_underscore. tauto. }
  rewrite <- H, <- str_encode_ok.
  destruct (str_encode _) as [d|e]; split; intros [x Hx];
    try discriminate; eexists; reflexivity.
Qed.

Lemma generate_group_key_ok (module_name : str) (run : Run) :
  (exists key, generate_group_key module_name run = Ok key)
  <-> encodable module_name.
Proof.
  rewrite generate_group_key_eq, <- str_encode_ok.
  destruct (str_encode _) as [d|e]; split; intros [x Hx];
    try discriminate; eexists; reflexivity.
Qed.

Lemma entries_exist (module_name : str) (run : Run) (fields : list Field) :
  encodable module_name -> Forall renderable fields ->
  exists entries,
    Forall2 (fun field entry =>
               (forall order,
                   build_acf_field field module_name order run = Ok entry)
               /\ entry_of module_name run field entry)
            fields entries.
Proof.
  intros Hm. induction 1 as [|f fields [Hn Ht] _ (entries & IH)].
  - exists []. constructor.
  - destruct (proj2 (generate_field_key_ok module_name (name f) run)
                (conj Hm Hn)) as [key Hk].
    destruct (build_acf_field_ok f module_name 0 run key Ht Hk)
      as (entry & He & Hof).
    exists (entry :: entries). constructor; [|exact IH].
    split; [|exact Hof]. intros order. rewrite <- He. reflexivity.
Qed.

(** C8, as the code has it.  For a module name that UTF-8 can encode, any
    slug, and fields whose names UTF-8 can encode and whose types are keys
    of the registry, [build_acf_json] returns a document with exactly the
    fourteen top-level keys, in order; its location is the single rule
    "post_type == slug"; its fields are, in order, one entry per field
    with the keys key, label, name, type, instructions, required,
    conditional_logic, wrapper followed by the extra attributes of the
    field's type, none of which is the registry's [type] or [label].  On
    any other input it raises. *)
Theorem build_acf_json_shape (module_name slug : str) (fields : list Field)
                             (run : Run) :
  (encodable module_name -> Forall renderable fields ->
   exists doc entries,
     build_acf_json module_name slug fields run = Ok doc
     /\ dict_keys doc = document_keys
     /\ dict_get (lit "location") doc = Some (location_rule slug)
     /\ dict_get (lit "fields") doc = Some (PList (map PDict entries))
     /\ Forall2 (entry_of module_name run) fields entries)
  /\ ((exists doc, build_acf_json module_name slug fields run = Ok doc)
      -> encodable module_name /\ Forall renderable fields).
Proof.
  split.
  - intros Hm Hf.
    destruct (entries_exist module_name run fields Hm Hf) as (entries & He).
    destruct (proj2 (generate_group_key_ok module_name run) Hm) as [key Hk].
    eexists. exists entries.
    rewrite build_acf_json_eq.
    assert (Hfe : for_each (fun '(i, field) => build_acf_field field module_name i)
                           (enumerate_from 0 fields) run = Ok entries).
    { apply for_each_ok.
      eapply Forall2_impl;
        [| apply (proj2 (Forall2_enumerate
                           (fun field entry =>
                              forall i, build_acf_field field module_name i run
                                        = Ok entry)
                           0 fields entries)) ].
      - intros [i f] e H. apply H.
      - eapply Forall2_impl; [|exact He]. intros f e [H _]. exact H. }
    rewrite Hfe, Hk.
    split; [reflexivity|]. split; [reflexivity|]. split; [reflexivity|].
    split; [reflexivity|].
    eapply Forall2_impl; [|exact He]. intros f e [_ H]. exact H.
  - intros [doc H]. rewrite build_acf_json_eq in H.
    destruct (for_each _ _ run) as [acf|e] eqn:Hfe; [|discriminate].
    destruct (generate_group_key module_name run) as [key|e] eqn:Hk;
      [|discriminate].
    assert (Hm : encodable module_name).
    { apply (generate_group_key_ok module_name run). exists key. exact Hk. }
    split; [exact Hm|].
    apply for_each_ok in Hfe. clear H Hk.
    revert acf Hfe. generalize 0.
    induction fields as [|f fields IH]; intros start acf Hfe; [constructor|].
    simpl in Hfe. inversion Hfe; subst.
    constructor; [|eapply IH; eassumption].
    match goal with
    | Hb : build_acf_field _ _ _ _ = Ok _ |- _ =>
        apply build_acf_field_inv in Hb as [Ht [k Hk]]
    end.
    split; [|exact Ht].
    apply (generate_field_key_ok module_name (name f) run). exists k. exact Hk.
Qed.

Lemma build_acf_json_shape_witness :
  exists doc entries,
    build_acf_json (lit "Produit") (lit "produit") produit_fields run0 = Ok doc
    /\ dict_keys doc = document_keys
    /\ dict_get (lit "location") doc = Some (location_rule (lit "produit"))
    /\ dict_get (lit "fields") doc = Some (PList (map PDict entries))
    /\ Forall2 (entry_of (lit "Produit") run0) produit_fields entries.
Proof.
  apply (proj1 (build_acf_json_shape (lit "Produit") (lit "produit")
                  produit_fields run0)).
  - unfold encodable. repeat (apply Forall_cons; [reflexivity|]). constructor.
  - unfold produit_fields, renderable, encodable.
    repeat (apply Forall_cons;
            [ split;
              [ repeat (apply Forall_cons; [reflexivity|]); constructor
              | simpl; tauto ]
            |]).
    constructor.
Defined.

(** C8, against the claim as written: with the lone surrogate U+DC80 for
    module name, [build_acf_json] raises [UnicodeEncodeError] and returns
    no document; so it does, with [KeyError], on a field whose type is not
    in the registry. *)
Lemma build_acf_json_raises :
  build_acf_json [56448] (lit "produit") [] run0
  = Raise (UnicodeEncodeError 56448)
  /\ build_acf_json (lit "Produit") (lit "produit")
       [ {| name := lit "prix"; field_type := lit "currency";
            label := lit "Prix" |} ] run0
     = Raise (KeyError (lit "currency")).
Proof. split; reflexivity. Qed.

Lemma build_acf_field_independent (field : Field) (module_name : str)
                                  (order : Z) :
  run_independent (build_acf_field field module_name order).
Proof.
  unfold build_acf_field, type_config_of, dict_pop.
  apply bind_independent.
  - destruct (registry_get _ _); auto with py.
  - intros config. apply bind_independent.
    + destruct (dict_get _ _); auto with py.
    + intros [kind rest]. apply bind_independent.
      * apply generate_field_key_independent.
      * auto with py.
Qed.

(** C9.  In two processes, [build_acf_json] on the same module name, slug
    and fields either raises the same exception in both, or returns two
    documents with the same keys that agree on every key other than
    [modified], where each holds the time of its own process: the second
    document is the first with [modified] set anew.  In particular the
    group key and the field entries, with their field keys, are equal. *)
Theorem build_acf_json_runs_agree (module_name slug : str)
                                  (fields : list Field) (run1 run2 : Run) :
  match build_acf_json module_name slug fields run1,
        build_acf_json module_name slug fields run2 with
  | Ok doc1, Ok doc2 =>
      dict_keys doc1 = dict_keys doc2
      /\ (forall key, key <> lit "modified" ->
                      dict_get key doc1 = dict_get key doc2)
      /\ dict_get (lit "modified") doc1 = Some (PInt (unix_time run1))
      /\ dict_get (lit "modified") doc2 = Some (PInt (unix_time run2))
      /\ doc2 = dict_set (lit "modified") (PInt (unix_time run2)) doc1
  | Raise e1, Raise e2 => e1 = e2
  | _, _ => False
  end.
Proof.
  rewrite !build_acf_json_eq.
  rewrite (for_each_independent
             (fun '(i, field) => build_acf_field field module_name i)
             (enumerate_from 0 fields)
             (fun '(i, field) => build_acf_field_independent field module_name i)
             run1 run2).
  rewrite (generate_group_key_independent module_name run1 run2).
  destruct (for_each _ _ run2) as [acf|e]; [|reflexivity].
  destruct (generate_group_key module_name run2) as [key|e]; [|reflexivity].
  split; [reflexivity|]. split; [|repeat split].
  intros k Hk. apply str_eqb_neq in Hk.
  cbn [dict_get]. rewrite Hk. reflexivity.
Qed.

(** Two runs of [module Produit titre:text prix:number image:image]: same
    group key, same field keys, different [modified]. *)
Example produit_two_runs :
  exists doc0 doc1,
    build_acf_json (lit "Produit") (lit "produit") produit_fields run0 = Ok doc0
    /\ build_acf_json (lit "Produit") (lit "produit") produit_fields run1
       = Ok doc1
    /\ dict_get (lit "key") doc0 = Some (PStr (lit "group_e30e2cb9"))
    /\ dict_get (lit "key") doc1 = Some (PStr (lit "group_e30e2cb9"))
    /\ dict_get (lit "fields") doc0 = dict_get (lit "fields") doc1
    /\ dict_get (lit "modified") doc0 = Some (PInt 1700000000)
    /\ dict_get (lit "modified") doc1 = Some (PInt 1800000123).
Proof.
  eexists. eexists.
  split; [vm_compute; reflexivity|].
  split; [vm_compute; reflexivity|].
  repeat split.
Qed.

Example date_entry :
  build_acf_field
    {| name := lit "debut"; field_type := lit "date"; label := lit "Debut" |}
    (lit "Stage") 0 run0
  = Ok (rendered_entry (lit "field_755d8aa8")
          {| name := lit "debut"; field_type := lit "date";
             label := lit "Debut" |}
          (PStr (lit "date_picker"))
          [ (lit "display_format", PStr (lit "d/m/Y"));
            (lit "return_format", PStr (lit "Y-m-d")) ]).
Proof. vm_compute. reflexivity. Qed.

Example md5_test_vectors :
  MD5.hexdigest [] = lit "d41d8cd98f00b204e9800998ecf8427e"
  /\ MD5.hexdigest (lit "abc") = lit "900150983cd24fb0d6963f7d28e17f72"
  /\ MD5.hexdigest (repeat 97 70) = lit "0f5c6c4e740bfcc08c3c26ccb2673d46".
Proof. repeat split; vm_compute; reflexivity. Qed.

Example utf8_test_vectors :
  str_encode [233] = Ok [195; 169]
  /\ str_encode [8364] = Ok [226; 130; 172]
  /\ str_encode [128640] = Ok [240; 159; 154; 128].
Proof. repeat split. Qed.

(* ================================================================== *)
(** * Normaliser: accent folding *)

Lemma re_sub_class_map (cls : list Z) (r : Z) (text : str) :
  re_sub_class cls [r] text = map (fun c => if char_in cls c then r else c) text.
Proof.
  unfold re_sub_class. induction text as [|c text IH]; simpl; [reflexivity|].
  rewrite IH. destruct (char_in cls c); reflexivity.
Qed.

Lemma fold_char_steps (c : Z) :
  (fun c => if char_in [231] c then 99 else c)
    ((fun c => if char_in [249; 250; 251; 252] c then 117 else c)
       ((fun c => if char_in [242; 243; 244; 245; 246] c then 111 else c)
          ((fun c => if char_in [236; 237; 238; 239] c then 105 else c)
             ((fun c => if char_in [232; 233; 234; 235] c then 101 else c)
                ((fun c => if char_in [224; 225; 226; 227; 228; 229] c
                           then 97 else c) c)))))
  = fold_char c.
Proof.
  unfold fold_char. cbv beta.
  destruct (char_in [224; 225; 226; 227; 228; 229] c); [reflexivity|].
  destruct (char_in [232; 233; 234; 235] c); [reflexivity|].
  destruct (char_in [236; 237; 238; 239] c); [reflexivity|].
  destruct (char_in [242; 243; 244; 245; 246] c); [reflexivity|].
  destruct (char_in [249; 250; 251; 252] c); [reflexivity|].
  reflexivity.
Qed.

Lemma fold_accents_map (text : str) : fold_accents text = map fold_char text.
Proof.
  unfold fold_accents. cbv zeta.
  change (lit "a") with [97]. change (lit "e") with [101].
  change (lit "i") with [105]. change (lit "o") with [111].
  change (lit "u") with [117]. change (lit "c") with [99].
  rewrite !re_sub_class_map, !map_map.
  apply map_ext. intros c. apply fold_char_steps.
Qed.

Lemma char_in_false (chars : list Z) (c : Z) :
  char_in chars c = false <-> ~ In c chars.
Proof.
  rewrite <- char_in_In. destruct (char_in chars c); split; congruence.
Qed.

Lemma fold_char_low (c : Z) : c < 224 -> fold_char c = c.
Proof.
  intros H. unfold fold_char.
  repeat match goal with
         | |- context [char_in ?l c] =>
             let E := fresh in
             destruct (char_in l c) eqn:E;
             [ apply char_in_In in E; simpl in E; lia |]
         end.
  reflexivity.
Qed.

Lemma fold_char_not_accented (c : Z) : ~ In (fold_char c) accented.
Proof.
  unfold fold_char.
  repeat match goal with
         | |- context [char_in ?l c] =>
             let E := fresh "E" in
             destruct (char_in l c) eqn:E;
             [ simpl; lia | apply char_in_false in E ]
         end.
  simpl in *. lia.
Qed.

(** X1.  The six replacement passes of [slugify] amount to one map on
    characters: each listed accented letter becomes its base letter and
    every other character stays, so the length is kept, characters below
    U+00E0 are untouched and no listed accented letter is left. *)
Theorem fold_accents_pointwise (text : str) :
  fold_accents text = map fold_char text
  /\ List.length (fold_accents text) = List.length text
  /\ (forall c, In c (fold_accents text) -> ~ In c accented)
  /\ (Forall (fun c => c < 224) text -> fold_accents text = text).
Proof.
  rewrite fold_accents_map. split; [reflexivity|].
  split; [apply length_map|]. split.
  - intros c Hc. apply in_map_iff in Hc as (d & <- & _).
    apply fold_char_not_accented.
  - intros H. rewrite <- (map_id text) at 2. apply map_ext_in.
    intros c Hc. apply fold_char_low.
    rewrite Forall_forall in H. auto.
Qed.

(* ================================================================== *)
(** * Normaliser: normal forms *)

Lemma plain_char_low (c : Z) : plain_char c -> c < 224.
Proof.
  intros [H|[->| ->]]; [apply az09_ascii in H; lia | unfold hyphen; lia
                       | unfold underscore; lia].
Qed.

Lemma fold_accents_plain (s : str) : Forall plain_char s -> fold_accents s = s.
Proof.
  intros H. rewrite fold_accents_map.
  rewrite <- (map_id s) at 2. apply map_ext_in. intros c Hc.
  apply fold_char_low, plain_char_low.
  rewrite Forall_forall in H. auto.
Qed.

Lemma no_pair_of_neq (h : Z) (s : str) :
  (forall front rest, s <> front ++ h :: h :: rest) -> no_pair h s.
Proof.
  induction s as [|a s IH]; intros H; [exact I|]. split.
  - destruct s as [|b s]; [exact I|]. intros [-> ->]. exact (H [] s eq_refl).
  - apply IH. intros front rest ->. exact (H (a :: front) rest eq_refl).
Qed.

(** Collapsing the runs of a slug whose hyphens were renamed by [g] gives
    the slug back. *)
Lemma re_sub_runs_slug (g : Z -> Z) (s : str) (in_run : bool) :
  (forall c, az09 c = true -> g c = c) -> az09 (g hyphen) = false ->
  Forall slug_char s -> no_pair hyphen s ->
  (in_run = true -> forall rest, s <> hyphen :: rest) ->
  re_sub_runs not_az09 [hyphen] in_run (map g s) = s.
Proof.
  intros Hg Hh F. revert in_run.
  induction F as [|c s Hc F IH]; intros in_run P Hb; [reflexivity|].
  cbn [map re_sub_runs]. destruct P as [P1 P]. unfold not_az09 at 1.
  destruct Hc as [Hc| ->].
  - rewrite (Hg c Hc), Hc. cbn [negb]. f_equal.
    apply IH; [exact P | discriminate].
  - rewrite Hh. cbn [negb]. destruct in_run.
    + exfalso. exact (Hb eq_refl s eq_refl).
    + cbn [app]. f_equal. apply IH; [exact P|].
      intros _ rest ->. apply P1. split; reflexivity.
Qed.

Lemma str_strip_separated (s : str) :
  separated_by hyphen s -> str_strip [hyphen] s = s.
Proof.
  intros (H1 & H2 & _). unfold str_strip.
  assert (El : str_lstrip [hyphen] s = s).
  { destruct s as [|c s]; [reflexivity|]. cbn [str_lstrip].
    destruct (char_in [hyphen] c) eqn:E; [|reflexivity].
    apply char_in_In in E. destruct E as [<-|[]].
    exfalso. exact (H1 s eq_refl). }
  rewrite El. destruct s as [|c s]; [reflexivity|].
  assert (Hne : c :: s <> []) by discriminate.
  destruct (exists_last Hne) as (front & d & E). rewrite E.
  apply str_rstrip_keep. intros [<-|[]].
  exact (H2 front E).
Qed.

Section NormalForms.
Context {cm : CaseMapping}.
Hypothesis lower_plain : lower_keeps_plain cm.

Lemma slug_char_plain (c : Z) : slug_char c -> plain_char c.
Proof. intros [H|H]; [left | right; left]; exact H. Qed.

Lemma swap_plain (c : Z) :
  slug_char c -> plain_char (swap_char hyphen underscore c).
Proof.
  intros H. destruct (swap_slug_char c H) as [E|E];
    [left | right; right]; exact E.
Qed.

(** Normalising a slug whose hyphens were renamed by [g]. *)
Lemma slugify_of_slug (g : Z -> Z) (text : str) :
  (forall c, az09 c = true -> g c = c) -> az09 (g hyphen) = false ->
  (forall c, slug_char c -> plain_char (g c)) ->
  slugify (map g (slugify text)) = slugify text.
Proof.
  intros Hg Hh Hp.
  destruct (slugify_props text) as (F & S).
  assert (Fp : Forall plain_char (map g (slugify text))).
  { apply Forall_map. eapply Forall_impl; [|exact F]. exact Hp. }
  unfold slugify at 1. rewrite (lower_plain _ Fp), (fold_accents_plain _ Fp).
  change (lit "-") with [hyphen].
  rewrite (re_sub_runs_slug g (slugify text) false Hg Hh F).
  - apply str_strip_separated. exact S.
  - apply no_pair_of_neq. apply S.
  - discriminate.
Qed.

Lemma slugify_slugify (text : str) : slugify (slugify text) = slugify text.
Proof.
  rewrite <- (map_id (slugify text)) at 1.
  apply (slugify_of_slug (fun c => c)); auto using slug_char_plain.
Qed.

Lemma slugify_to_snake_case (text : str) :
  slugify (to_snake_case text) = slugify text.
Proof.
  rewrite to_snake_case_map.
  apply (slugify_of_slug (swap_char hyphen underscore)).
  - intros c Hc. unfold swap_char.
    destruct (Z.eqb_spec c hyphen) as [E|_]; [|reflexivity].
    exfalso. exact (az09_not_hyphen c Hc E).
  - reflexivity.
  - exact swap_plain.
Qed.

(** X2.  [slugify] is idempotent: the slug of a slug is that slug. *)
Theorem slugify_idempotent (text : str) :
  slugify (slugify text) = slugify text.
Proof. apply slugify_slugify. Qed.

(** X3.  Slug and snake-case name are interchangeable as inputs: either
    one normalises to the slug, and to the snake-case name, of the
    original text; in particular [to_snake_case] is idempotent. *)
Theorem normal_forms_interchange (text : str) :
  slugify (to_snake_case text) = slugify text
  /\ to_snake_case (to_snake_case text) = to_snake_case text
  /\ to_snake_case (slugify text) = to_snake_case text.
Proof.
  split; [apply slugify_to_snake_case|]. split.
  - unfold to_snake_case at 1. cbv zeta.
    rewrite slugify_to_snake_case. reflexivity.
  - unfold to_snake_case at 1. cbv zeta.
    rewrite slugify_slugify. reflexivity.
Qed.

End NormalForms.

Lemma latin1_lower_keeps_plain : lower_keeps_plain latin1_case.
Proof.
  intros s F. cbn [str_lower latin1_case]. unfold Latin1.lower.
  induction F as [|c s Hc _ IH]; [reflexivity|].
  cbn [flat_map]. rewrite IH.
  assert (E : Latin1.lower_cp c = [c]).
  { unfold Latin1.lower_cp.
    assert (Hr : (48 <= c <= 57) \/ (97 <= c <= 122) \/ c = 45 \/ c = 95).
    { destruct Hc as [H|[->| ->]]; [unfold az09 in H; lia | auto | auto]. }
    destruct (Z.leb_spec 65 c), (Z.leb_spec c 90), (Z.leb_spec 192 c),
      (Z.leb_spec c 222), (Z.eqb_spec c 215), (Z.eqb_spec c 304),
      (Z.eqb_spec c 8490), (Z.eqb_spec c 8491);
      cbn [andb negb]; try reflexivity; lia. }
  rewrite E. reflexivity.
Qed.

Lemma slugify_idempotent_witness :
  lower_keeps_plain latin1_case
  /\ slugify (slugify (lit "Prix  TTC!")) = slugify (lit "Prix  TTC!").
Proof.
  split; [exact latin1_lower_keeps_plain|].
  exact (slugify_idempotent latin1_lower_keeps_plain (lit "Prix  TTC!")).
Defined.

Lemma normal_forms_interchange_witness :
  lower_keeps_plain latin1_case
  /\ to_snake_case (to_snake_case (lit "Prix  TTC!"))
     = to_snake_case (lit "Prix  TTC!").
Proof.
  split; [exact latin1_lower_keeps_plain|].
  exact (proj1 (proj2 (normal_forms_interchange latin1_lower_keeps_plain
                         (lit "Prix  TTC!")))).
Defined.

Section SlugSnake.
Context {cm : CaseMapping}.

Lemma swap_back (c : Z) :
  slug_char c ->
  swap_char underscore hyphen (swap_char hyphen underscore c) = c.
Proof.
  unfold swap_char. intros [H| ->]; [|reflexivity].
  destruct (Z.eqb_spec c hyphen) as [E|_].
  - exfalso. exact (az09_not_hyphen c H E).
  - destruct (Z.eqb_spec c underscore) as [E|_]; [|reflexivity].
    exfalso. exact (az09_not_underscore c H E).
Qed.

(** X4.  The slug can be recovered from the snake-case name: replacing
    every underscore of [to_snake_case text] by a hyphen gives
    [slugify text], and both have the same length. *)
Theorem snake_case_round_trip (text : str) :
  str_replace underscore (lit "-") (to_snake_case text) = slugify text
  /\ List.length (to_snake_case text) = List.length (slugify text).
Proof.
  rewrite to_snake_case_map. split; [|apply length_map].
  change (lit "-") with [hyphen]. rewrite str_replace_map, map_map.
  rewrite <- (map_id (slugify text)) at 2. apply map_ext_in.
  intros c Hc. apply swap_back.
  destruct (slugify_props text) as (F & _).
  rewrite Forall_forall in F. auto.
Qed.

Lemma filter_nil_all (p : Z -> bool) (s : str) :
  filter p s = [] -> Forall (fun c => p c = false) s.
Proof.
  induction s as [|c s IH]; simpl; [constructor|].
  destruct (p c) eqn:E; [discriminate|]. intros H. constructor; auto.
Qed.

(** X5.  The slug, and so the snake-case name, is empty exactly when the
    lower-cased, accent-folded text holds no character of [a-z0-9]. *)
Theorem slugify_empty_iff (text : str) :
  (slugify text = [] <-> gap (fold_accents (str_lower text)))
  /\ (to_snake_case text = [] <-> gap (fold_accents (str_lower text))).
Proof.
  assert (H : slugify text = [] <-> gap (fold_accents (str_lower text))).
  { split.
    - intros E. apply filter_nil_all. rewrite <- slugify_keeps, E. reflexivity.
    - apply slugify_no_word. }
  split; [exact H|]. rewrite <- H, to_snake_case_map. split.
  - apply map_eq_nil.
  - intros ->. reflexivity.
Qed.

End SlugSnake.

(* ================================================================== *)
(** * Field parser: the type is matched as written *)

Lemma supported_keys_lower (tag : str) :
  In tag supported_keys -> Forall lower_letter tag.
Proof.
  unfold supported_keys. cbn [map fst SUPPORTED_TYPES]. unfold lower_letter.
  intros H.
  repeat (destruct H as [<-|H];
          [ repeat (apply Forall_cons; [cbn; lia|]); constructor |]).
  destruct H.
Qed.

Lemma count_colons (front rest : str) :
  ~ In colon front ->
  count_occ Z.eq_dec (front ++ colon :: rest) colon
  = S (count_occ Z.eq_dec rest colon).
Proof.
  intros H. rewrite count_occ_app, count_occ_cons_eq by reflexivity.
  apply (count_occ_not_In Z.eq_dec) in H. rewrite H. reflexivity.
Qed.

Section ParserVerbatim.
Context {cm : CaseMapping}.

(** X6.  The type of a token is everything after its first [':'], matched
    against the registry as written: a type with any character other than
    a lower-case ASCII letter is rejected, so an accepted type is made of
    such letters only, and a token with two or more [':'] is always
    rejected, its type holding the second one. *)
Theorem parse_field_type_verbatim (run : Run) :
  (forall raw_name raw_type,
      ~ In colon raw_name -> ~ Forall lower_letter raw_type ->
      parse_field (raw_name ++ colon :: raw_type) run
      = Raise (BadParameter (unsupported_message raw_type)))
  /\ (forall raw field,
         parse_field raw run = Ok field -> Forall lower_letter (field_type field))
  /\ (forall a b c,
         exists raw_type,
           In colon raw_type
           /\ parse_field (a ++ colon :: b ++ colon :: c) run
              = Raise (BadParameter (unsupported_message raw_type))).
Proof.
  assert (H1 : forall raw_name raw_type,
             ~ In colon raw_name -> ~ Forall lower_letter raw_type ->
             parse_field (raw_name ++ colon :: raw_type) run
             = Raise (BadParameter (unsupported_message raw_type))).
  { intros n t Hn Ht. apply parse_field_unsupported; [exact Hn|].
    intros Hin. apply Ht. apply supported_keys_lower. exact Hin. }
  split; [exact H1|]. split.
  - intros raw field H.
    apply parse_field_inv in H as (n & t & _ & _ & Ht & ->). cbn [field_type].
    apply supported_keys_lower. exact Ht.
  - intros a b c.
    destruct (token_cases (a ++ colon :: b ++ colon :: c))
      as [Hno|(n & t & E & Hn)].
    + exfalso. apply Hno. apply in_or_app. right. left. reflexivity.
    + exists t.
      assert (Hin : In colon t).
      { apply (count_occ_In Z.eq_dec).
        assert (Hc : (2 <= count_occ Z.eq_dec (a ++ colon :: b ++ colon :: c)
                            colon)%nat).
        { rewrite count_occ_app, count_occ_cons_eq by reflexivity.
          rewrite count_occ_app, count_occ_cons_eq by reflexivity. lia. }
        rewrite E, (count_colons n t Hn) in Hc. lia. }
      split; [exact Hin|]. rewrite E. apply H1; [exact Hn|].
      intros F. rewrite Forall_forall in F. specialize (F colon Hin).
      unfold lower_letter, colon in F. lia.
Qed.

End ParserVerbatim.

Lemma parse_field_type_verbatim_witness :
  parse_field (lit "prix" ++ colon :: lit "Number") run0
  = Raise (BadParameter (unsupported_message (lit "Number"))).
Proof.
  apply (proj1 (parse_field_type_verbatim (cm := latin1_case) run0)).
  - cbn. unfold colon. intuition discriminate.
  - intros F. inversion F as [|c l Hc _]; subst.
    unfold lower_letter in Hc. lia.
Defined.

(* ================================================================== *)
(** * Labels *)

Lemma str_replace_removes (old new : Z) (text : str) :
  old <> new -> ~ In old (str_replace old [new] text).
Proof.
  intros Hne. rewrite str_replace_map. intros H.
  apply in_map_iff in H as (c & E & _). unfold swap_char in E.
  destruct (Z.eqb_spec c old); congruence.
Qed.

Lemma str_replace_keeps_out (old new h : Z) (text : str) :
  h <> new -> ~ In h text -> ~ In h (str_replace old [new] text).
Proof.
  intros Hne Hout. rewrite str_replace_map. intros H.
  apply in_map_iff in H as (c & E & Hc). unfold swap_char in E.
  destruct (Z.eqb_spec c old); [congruence|]. subst c. contradiction.
Qed.

(** X7.  A label holds neither a hyphen nor an underscore: [to_label]
    turns both into spaces before title-casing, and title-casing brings
    none back. *)
Theorem to_label_no_separator (cm : CaseMapping) (text : str) :
  title_keeps_out cm hyphen -> title_keeps_out cm underscore ->
  ~ In hyphen (to_label text) /\ ~ In underscore (to_label text).
Proof.
  intros Hh Hu. unfold to_label. change (lit " ") with [32]. split.
  - apply Hh. apply str_replace_keeps_out; [discriminate|].
    apply str_replace_removes. discriminate.
  - apply Hu. apply str_replace_removes. discriminate.
Qed.

Lemma latin1_title_keeps_out (h : Z) :
  h = hyphen \/ h = underscore -> title_keeps_out latin1_case h.
Proof.
  intros Hh s. cbn [str_title latin1_case]. unfold Latin1.title.
  generalize false. induction s as [|c s IH]; intros b Hout; [intros []|].
  cbn [Latin1.title_from]. intros H. apply in_app_or in H as [H|H].
  - assert (Hc : c <> h) by (intros ->; apply Hout; left; reflexivity).
    unfold hyphen, underscore in Hh.
    destruct b.
    + unfold Latin1.lower_cp in H.
      repeat match type of H with
             | In _ (if ?t then _ else _) => destruct t eqn:?
             end; simpl in H; lia.
    + unfold Latin1.title_cp in H.
      repeat match type of H with
             | In _ (if ?t then _ else _) => destruct t eqn:?
             end; simpl in H; lia.
  - apply (IH (Latin1.is_cased c)); [|exact H].
    intros Hin. apply Hout. right. exact Hin.
Qed.

Lemma to_label_no_separator_witness :
  ~ In hyphen (to_label (lit "date-de_fin"))
  /\ ~ In underscore (to_label (lit "date-de_fin")).
Proof.
  apply (to_label_no_separator latin1_case).
  - apply latin1_title_keeps_out. left. reflexivity.
  - apply latin1_title_keeps_out. right. reflexivity.
Defined.

(* ================================================================== *)
(** * Schema builder: errors and composition *)

Lemma registry_has_type (tag : str) (config : dict) :
  registry_get tag SUPPORTED_TYPES = Some config ->
  exists kind, dict_get (lit "type") config = Some kind.
Proof.
  unfold SUPPORTED_TYPES. cbn [registry_get].
  repeat match goal with
         | |- context [str_eqb tag ?k] => destruct (str_eqb tag k)
         end;
    intros H; inversion H; subst; eexists; reflexivity.
Qed.

Lemma registry_get_In (tag : str) :
  In tag supported_keys
  <-> exists config, registry_get tag SUPPORTED_TYPES = Some config.
Proof.
  split.
  - intros H. unfold supported_keys in H. cbn [map fst SUPPORTED_TYPES] in H.
    repeat (destruct H as [<-|H]; [eexists; reflexivity|]). destruct H.
  - intros [config H]. apply supported_In. unfold supported, supported_keys.
    revert H. generalize SUPPORTED_TYPES.
    induction l as [|[k v] l IH]; simpl; [discriminate|].
    destruct (str_eqb tag k); simpl; auto.
Qed.

Lemma str_encode_raise (text : str) (e : exception) :
  str_encode text = Raise e ->
  exists c, In c text /\ is_surrogate c = true /\ e = UnicodeEncodeError c.
Proof.
  induction text as [|c text IH]; cbn [str_encode]; [discriminate|].
  destruct (is_surrogate c) eqn:Hc.
  - rewrite (utf8_cp_surrogate c Hc). intros H. inversion H.
    exists c. repeat split; auto. left. reflexivity.
  - destruct (utf8_cp_ok c Hc) as [bs ->].
    destruct (str_encode text) as [more|e']; [discriminate|].
    intros H. inversion H; subst.
    destruct (IH eq_refl) as (d & Hd & Hs & ->).
    exists d. repeat split; auto. right. exact Hd.
Qed.

(** What [build_acf_field] does, case by case. *)
Lemma build_acf_field_cases (field : Field) (module_name : str) (order : Z)
                            (run : Run) :
  (~ In (field_type field) supported_keys
   /\ build_acf_field field module_name order run
      = Raise (KeyError (field_type field)))
  \/ (In (field_type field) supported_keys
      /\ exists c,
           is_surrogate c = true
           /\ (In c module_name \/ In c (name field))
           /\ build_acf_field field module_name order run
              = Raise (UnicodeEncodeError c))
  \/ (In (field_type field) supported_keys
      /\ exists entry, build_acf_field field module_name order run = Ok entry).
Proof.
  destruct (registry_get (field_type field) SUPPORTED_TYPES) as [config|] eqn:R.
  - assert (Hin : In (field_type field) supported_keys).
    { apply registry_get_In. exists config. exact R. }
    right.
    destruct (generate_field_key module_name (name field) run) as [key|e] eqn:K.
    + right. split; [exact Hin|].
      destruct (build_acf_field_ok field module_name order run key Hin K)
        as (entry & He & _).
      exists entry. exact He.
    + left. split; [exact Hin|].
      rewrite generate_field_key_eq in K.
      destruct (str_encode (module_name ++ lit "_" ++ name field)) as [d|e']
        eqn:E; [discriminate|].
      inversion K; subst e'.
      destruct (str_encode_raise _ _ E) as (c & Hc & Hs & ->).
      exists c. split; [exact Hs|]. split.
      * apply in_app_or in Hc as [Hc|Hc]; [left; exact Hc|].
        apply in_app_or in Hc as [Hc|Hc]; [|right; exact Hc].
        destruct Hc as [<-|[]]. discriminate.
      * destruct (registry_has_type _ _ R) as [kind Hk].
        unfold build_acf_field.
        erewrite bind_ok by (unfold type_config_of; rewrite R; reflexivity).
        erewrite bind_ok by (unfold dict_pop; rewrite Hk; reflexivity).
        cbv beta iota. unfold bind. rewrite generate_field_key_eq, E.
        reflexivity.
  - left. split.
    + intros Hin. apply registry_get_In in Hin as [config Hc]. congruence.
    + unfold build_acf_field, bind, type_config_of. rewrite R. reflexivity.
Qed.

Lemma for_each_raise {A B} (body : A -> Py B) (run : Run) (items : list A)
                     (e : exception) :
  for_each body items run = Raise e
  <-> exists before x after,
        items = before ++ x :: after
        /\ Forall (fun y => exists b, body y run = Ok b) before
        /\ body x run = Raise e.
Proof.
  induction items as [|x items IH]; cbn [for_each].
  - split; [discriminate|]. intros (b & y & a & E & _). destruct b; discriminate.
  - unfold bind at 1. destruct (body x run) as [y|e'] eqn:Hx.
    + unfold bind at 1. destruct (for_each body items run) as [ys|e''] eqn:Hr.
      * split; [discriminate|]. intros (b & z & a & E & Fb & Hz).
        destruct b as [|b0 b]; cbn [app] in E; inversion E; subst.
        -- congruence.
        -- assert (C : @Raise (list B) e = Raise e) by reflexivity.
           assert (D : Ok ys = @Raise (list B) e).
           { apply IH. exists b, z, a. inversion Fb; subst. auto. }
           discriminate.
      * split.
        -- intros H. inversion H; subst.
           destruct (proj1 IH eq_refl) as (b & z & a & -> & Fb & Hz).
           exists (x :: b), z, a. repeat split; auto.
           constructor; [eexists; exact Hx | exact Fb].
        -- intros (b & z & a & E & Fb & Hz).
           destruct b as [|b0 b]; cbn [app] in E; inversion E; subst.
           ++ congruence.
           ++ f_equal.
              assert (D : Raise e'' = @Raise (list B) e).
              { apply IH. exists b, z, a. inversion Fb; subst. auto. }
              inversion D. reflexivity.
    + split.
      * intros H. inversion H; subst. exists [], x, items. auto.
      * intros (b & z & a & E & Fb & Hz).
        destruct b as [|b0 b]; cbn [app] in E; inversion E; subst.
        -- congruence.
        -- inversion Fb as [|? ? [w Hw] _]; subst. congruence.
Qed.

Lemma enumerate_from_split {A} (start : Z) (items : list A) (before : list (Z * A))
                           (p : Z * A) (after : list (Z * A)) :
  enumerate_from start items = before ++ p :: after ->
  items = map snd before ++ snd p :: map snd after.
Proof.
  intros H.
  assert (E : forall s (l : list A), map snd (enumerate_from s l) = l).
  { intros s l. revert s. induction l as [|x l IH]; intros s; simpl;
      [reflexivity|]. rewrite IH. reflexivity. }
  rewrite <- (E start items), H, map_app. reflexivity.
Qed.

Lemma enumerate_from_app {A} (start : Z) (a b : list A) :
  enumerate_from start (a ++ b)
  = enumerate_from start a
    ++ enumerate_from (start + Z.of_nat (List.length a)) b.
Proof.
  revert start. induction a as [|x a IH]; intros start; simpl.
  - rewrite Z.add_0_r. reflexivity.
  - rewrite IH. do 3 f_equal. lia.
Qed.

Lemma build_acf_json_raise_cases (module_name slug : str)
                                 (fields : list Field) (run : Run)
                                 (e : exception) :
  build_acf_json module_name slug fields run = Raise e ->
  (exists field,
      In field fields /\ ~ In (field_type field) supported_keys
      /\ e = KeyError (field_type field))
  \/ (exists c,
         is_surrogate c = true
         /\ (In c module_name \/ exists field, In field fields /\ In c (name field))
         /\ e = UnicodeEncodeError c).
Proof.
  rewrite build_acf_json_eq.
  destruct (for_each _ _ run) as [acf|e'] eqn:Hf.
  - destruct (generate_group_key module_name run) as [key|e''] eqn:Hk;
      [discriminate|].
    intros H. inversion H; subst. right.
    rewrite generate_group_key_eq in Hk.
    destruct (str_encode module_name) as [d|e'] eqn:E; [discriminate|].
    inversion Hk; subst.
    destruct (str_encode_raise _ _ E) as (c & Hc & Hs & ->).
    exists c. auto.
  - intros H. inversion H; subst.
    apply for_each_raise in Hf as (before & [i f] & after & E & _ & Hx).
    apply enumerate_from_split in E. cbn [snd] in E.
    assert (Hin : In f fields).
    { rewrite E. apply in_or_app. right. left. reflexivity. }
    destruct (build_acf_field_cases f module_name i run)
      as [[Hno Hr]|[(Hyes & c & Hs & Hc & Hr)|(_ & entry & Hr)]];
      rewrite Hr in Hx; inversion Hx; subst.
    + left. exists f. auto.
    + right. exists c. split; [exact Hs|]. split; [|reflexivity].
      destruct Hc as [Hc|Hc]; [left; exact Hc | right; exists f; auto].
Qed.

(** X8.  The exceptions of [build_acf_json] are of two kinds only:
    [KeyError] on the type of one of the fields, a type that is not in the
    registry, and [UnicodeEncodeError] on a surrogate code point found in
    the module name or in the name of one of the fields. *)
Theorem build_acf_json_exceptions (module_name slug : str)
                                  (fields : list Field) (run : Run)
                                  (e : exception) :
  build_acf_json module_name slug fields run = Raise e ->
  (exists field,
      In field fields /\ ~ In (field_type field) supported_keys
      /\ e = KeyError (field_type field))
  \/ (exists c,
         is_surrogate c = true
         /\ (In c module_name \/ exists field, In field fields /\ In c (name field))
         /\ e = UnicodeEncodeError c).
Proof. apply build_acf_json_raise_cases. Qed.

Lemma build_acf_json_exceptions_witness :
  (exists field,
      In field [ {| name := lit "prix"; field_type := lit "currency";
                    label := lit "Prix" |} ]
      /\ ~ In (field_type field) supported_keys
      /\ KeyError (lit "currency") = KeyError (field_type field))
  \/ (exists c,
         is_surrogate c = true
         /\ (In c (lit "Produit")
             \/ exists field,
                  In field [ {| name := lit "prix"; field_type := lit "currency";
                                label := lit "Prix" |} ]
                  /\ In c (name field))
         /\ KeyError (lit "currency") = UnicodeEncodeError c).
Proof.
  apply (build_acf_json_exceptions (lit "Produit") (lit "produit")
           [ {| name := lit "prix"; field_type := lit "currency";
                label := lit "Prix" |} ] run0).
  reflexivity.
Defined.

(** X9.  The first field that cannot be rendered decides the outcome of
    [build_acf_json]: when the fields before it render and it raises,
    [build_acf_json] raises the same exception, whatever the fields after
    it and whether or not the module name can be hashed for the group
    key.  The position of a field plays no part in its entry. *)
Theorem build_acf_json_first_failure (module_name slug : str)
                                     (before : list Field) (field : Field)
                                     (after : list Field) (run : Run)
                                     (e : exception) :
  Forall (fun f => exists entry, build_acf_field f module_name 0 run = Ok entry)
         before ->
  build_acf_field field module_name 0 run = Raise e ->
  build_acf_json module_name slug (before ++ field :: after) run = Raise e
  /\ (forall f i j, build_acf_field f module_name i run
                    = build_acf_field f module_name j run).
Proof.
  intros Hb Hf. split; [|reflexivity].
  rewrite build_acf_json_eq.
  assert (H : for_each (fun '(i, f) => build_acf_field f module_name i)
                       (enumerate_from 0 (before ++ field :: after)) run
              = Raise e).
  { apply for_each_raise. rewrite enumerate_from_app. cbn [enumerate_from].
    eexists. eexists. eexists. split; [reflexivity|]. split; [|exact Hf].
    generalize 0 at 1. induction Hb as [|f l [entry Hf'] _ IH]; intros s;
      cbn [enumerate_from]; constructor; auto.
    exists entry. exact Hf'. }
  rewrite H. reflexivity.
Qed.

Lemma build_acf_json_first_failure_witness :
  build_acf_json [56448] (lit "produit")
    ([] ++ {| name := lit "titre"; field_type := lit "text";
              label := lit "Titre" |}
        :: [ {| name := lit "prix"; field_type := lit "currency";
                label := lit "Prix" |} ])
    run0
  = Raise (UnicodeEncodeError 56448).
Proof.
  apply (proj1 (build_acf_json_first_failure [56448] (lit "produit") []
                  {| name := lit "titre"; field_type := lit "text";
                     label := lit "Titre" |}
                  [ {| name := lit "prix"; field_type := lit "currency";
                       label := lit "Prix" |} ] run0
                  (UnicodeEncodeError 56448)
                  (Forall_nil _) eq_refl)).
Defined.

Lemma build_acf_field_key (field : Field) (module_name : str) (order : Z)
                          (run : Run) (entry : dict) :
  build_acf_field field module_name order run = Ok entry ->
  exists key,
    generate_field_key module_name (name field) run = Ok key
    /\ dict_get (lit "key") entry = Some (PStr key)
    /\ dict_get (lit "name") entry = Some (PStr (name field))
    /\ dict_get (lit "label") entry = Some (PStr (label field)).
Proof.
  intros H. destruct (build_acf_field_inv _ _ _ _ _ H) as (Hin & key & Hk).
  destruct (build_acf_field_ok field module_name order run key Hin Hk)
    as (entry' & He & (config & kind & key' & _ & _ & Hk' & -> & _)).
  rewrite He in H. inversion H; subst entry.
  rewrite Hk in Hk'. inversion Hk'; subst key'.
  exists key. repeat split; auto.
Qed.

(** X10.  The key of a field entry is made from the module name and the
    field's canonical name alone, and no attribute of a type overwrites
    it: two fields with the same name get the same key in their entries,
    whatever their types, labels and positions, and nothing reports the
    duplicate. *)
Theorem entry_key_by_name (module_name : str) (field1 field2 : Field)
                          (i j : Z) (run : Run) (entry1 entry2 : dict) :
  name field1 = name field2 ->
  build_acf_field field1 module_name i run = Ok entry1 ->
  build_acf_field field2 module_name j run = Ok entry2 ->
  exists key,
    generate_field_key module_name (name field1) run = Ok key
    /\ dict_get (lit "key") entry1 = Some (PStr key)
    /\ dict_get (lit "key") entry2 = Some (PStr key).
Proof.
  intros E H1 H2.
  destruct (build_acf_field_key _ _ _ _ _ H1) as (k1 & K1 & G1 & _).
  destruct (build_acf_field_key _ _ _ _ _ H2) as (k2 & K2 & G2 & _).
  rewrite <- E, K1 in K2. inversion K2; subst k2.
  exists k1. auto.
Qed.

Lemma entry_key_by_name_witness :
  exists key,
    generate_field_key (lit "Produit") (lit "prix") run0 = Ok key
    /\ dict_get (lit "key")
         (rendered_entry (lit "field_e42ed0f8")
            {| name := lit "prix"; field_type := lit "number";
               label := lit "Prix" |}
            (PStr (lit "number")) [])
       = Some (PStr key)
    /\ dict_get (lit "key")
         (rendered_entry (lit "field_e42ed0f8")
            {| name := lit "prix"; field_type := lit "image";
               label := lit "Photo du prix" |}
            (PStr (lit "image"))
            [ (lit "return_format", PStr (lit "array"));
              (lit "preview_size", PStr (lit "medium")) ])
       = Some (PStr key).
Proof.
  apply (entry_key_by_name (lit "Produit")
           {| name := lit "prix"; field_type := lit "number";
              label := lit "Prix" |}
           {| name := lit "prix"; field_type := lit "image";
              label := lit "Photo du prix" |} 0 1 run0).
  - reflexivity.
  - vm_compute. reflexivity.
  - vm_compute. reflexivity.
Defined.

Lemma snake_char_encodable (s : str) : Forall snake_char s -> encodable s.
Proof.
  intros F. unfold encodable. eapply Forall_impl; [|exact F].
  intros c Hc. apply snake_char_ascii in Hc. unfold is_surrogate. lia.
Qed.

Lemma parsed_renderable {cm : CaseMapping} (raw : str) (run : Run)
                        (field : Field) :
  parse_field raw run = Ok field -> renderable field.
Proof.
  intros H. apply parse_field_inv in H as (n & t & _ & _ & Ht & ->).
  split; [|exact Ht]. cbn [name].
  apply snake_char_encodable. apply to_snake_case_props.
Qed.

Lemma build_acf_json_ok (module_name slug : str) (fields : list Field)
                        (run : Run) :
  encodable module_name -> Forall renderable fields ->
  exists doc entries,
    build_acf_json module_name slug fields run = Ok doc
    /\ dict_get (lit "fields") doc = Some (PList (map PDict entries))
    /\ Forall2 (fun field entry =>
                  forall i, build_acf_field field module_name i run = Ok entry)
               fields entries.
Proof.
  intros Hm Hf.
  destruct (entries_exist module_name run fields Hm Hf) as (entries & He).
  destruct (proj2 (generate_group_key_ok module_name run) Hm) as [key Hk].
  assert (Hb : Forall2 (fun field entry =>
                          forall i, build_acf_field field module_name i run
                                    = Ok entry) fields entries).
  { eapply Forall2_impl; [|exact He]. intros f e [H _]. exact H. }
  eexists. exists entries. rewrite build_acf_json_eq.
  assert (Hfe : for_each (fun '(i, field) => build_acf_field field module_name i)
                         (enumerate_from 0 fields) run = Ok entries).
  { apply for_each_ok.
    eapply Forall2_impl;
      [| apply (proj2 (Forall2_enumerate
                         (fun field entry =>
                            forall i, build_acf_field field module_name i run
                                      = Ok entry)
                         0 fields entries)); exact Hb ].
    intros [i f] e H. apply H. }
  rewrite Hfe, Hk. split; [reflexivity|]. split; [reflexivity | exact Hb].
Qed.

(** X11.  What [parse_field] returns, [build_acf_json] can render: over
    fields parsed from tokens it never raises [KeyError]; it returns a
    document, with one entry per token, exactly when the module name can
    be encoded in UTF-8, and otherwise raises [UnicodeEncodeError] on a
    surrogate of the module name. *)
Theorem parsed_fields_render (cm : CaseMapping) (tokens : list str)
                             (fields : list Field) (module_name slug : str)
                             (run : Run) :
  Forall2 (fun raw field => parse_field raw run = Ok field) tokens fields ->
  (encodable module_name ->
   exists doc entries,
     build_acf_json module_name slug fields run = Ok doc
     /\ dict_get (lit "fields") doc = Some (PList (map PDict entries))
     /\ List.length entries = List.length tokens)
  /\ (forall e,
         build_acf_json module_name slug fields run = Raise e ->
         ~ encodable module_name
         /\ exists c, In c module_name /\ is_surrogate c = true
                      /\ e = UnicodeEncodeError c).
Proof.
  intros Hp.
  assert (Hr : Forall renderable fields).
  { clear module_name slug. induction Hp as [|raw f tokens fields H _ IH];
      constructor; [eapply parsed_renderable; exact H | exact IH]. }
  split.
  - intros Hm.
    destruct (build_acf_json_ok module_name slug fields run Hm Hr)
      as (doc & entries & Hd & Hf & Hb).
    exists doc, entries. split; [exact Hd|]. split; [exact Hf|].
    transitivity (List.length fields);
      [symmetry; exact (Forall2_length Hb) | symmetry; exact (Forall2_length Hp)].
  - intros e He.
    assert (Hn : ~ encodable module_name).
    { intros Hm.
      destruct (build_acf_json_ok module_name slug fields run Hm Hr)
        as (doc & ? & Hd & _). congruence. }
    split; [exact Hn|].
    destruct (build_acf_json_raise_cases _ _ _ _ _ He)
      as [(f & Hin & Hno & _)|(c & Hs & [Hc|(f & Hin & Hc)] & ->)].
    + exfalso. rewrite Forall_forall in Hr. apply Hno, (Hr f Hin).
    + exists c. auto.
    + exfalso. rewrite Forall_forall in Hr.
      destruct (Hr f Hin) as [Hen _]. unfold encodable in Hen.
      rewrite Forall_forall in Hen. specialize (Hen c Hc). congruence.
Qed.

Lemma parsed_fields_render_witness :
  exists doc entries,
    build_acf_json (lit "Produit") (lit "produit")
      [ {| name := lit "titre"; field_type := lit "text"; label := lit "Titre" |};
        {| name := lit "prix_ttc"; field_type := lit "number";
           label := lit "Prix Ttc" |} ] run0 = Ok doc
    /\ dict_get (lit "fields") doc = Some (PList (map PDict entries))
    /\ List.length entries = List.length [lit "titre:text"; lit "Prix TTC:number"].
Proof.
  assert (Hp : Forall2 (fun raw field => parse_field raw run0 = Ok field)
                 [lit "titre:text"; lit "Prix TTC:number"]
                 [ {| name := lit "titre"; field_type := lit "text";
                      label := lit "Titre" |};
                   {| name := lit "prix_ttc"; field_type := lit "number";
                      label := lit "Prix Ttc" |} ]).
  { constructor; [reflexivity|]. constructor; [reflexivity|]. constructor. }
  apply (proj1 (parsed_fields_render latin1_case _ _
                  (lit "Produit") (lit "produit") run0 Hp)).
  unfold encodable. repeat (apply Forall_cons; [reflexivity|]). constructor.
Defined.

(* ================================================================== *)
(** * Programs: running them *)

Lemma exec_pbind {A B} (w : world) (p : Prog A) (k : A -> Prog B)
                 (past : list event) :
  exec w (pbind p k) past
  = match exec w p past with
    | (trace, Returned a) => exec w (k a) trace
    | (trace, Failed f) => (trace, Failed f)
    end.
Proof.
  revert past. induction p as [a|f|R o c IH]; intros past; cbn [pbind exec].
  - reflexivity.
  - reflexivity.
  - apply IH.
Qed.

Lemma exec_call {R} (w : world) (o : op R) (past : list event) :
  exec w (call o) past
  = (past ++ [Event o (w R o past)],
     match w R o past with
     | Returned r => Returned r
     | Failed f => Failed f
     end).
Proof. unfold call. cbn [exec]. destruct (w R o past); reflexivity. Qed.

Lemma always_exec {A} (P : event -> Prop) (w : world) (p : Prog A)
                  (past : list event) :
  always P p -> Forall P past -> Forall P (fst (exec w p past)).
Proof.
  revert past. induction p as [a|f|R o c IH]; intros past Hp Hpast;
    cbn [exec fst]; auto.
  cbn [always] in Hp. destruct (Hp (w R o past)) as [He Hk].
  apply IH; [exact Hk|]. apply Forall_app. split; [exact Hpast|].
  constructor; [exact He | constructor].
Qed.

Lemma always_pbind {A B} (P : event -> Prop) (p : Prog A) (k : A -> Prog B) :
  always P p -> (forall a, always P (k a)) -> always P (pbind p k).
Proof.
  intros Hp Hk. induction p as [a|f|R o c IH]; cbn [pbind always]; auto.
  intros out. destruct (Hp out) as [He Hc]. split; [exact He|].
  apply IH. exact Hc.
Qed.

Lemma always_call {R} (P : event -> Prop) (o : op R) :
  (forall out, P (Event o out)) -> always P (call o).
Proof.
  intros H out. split; [apply H|]. destruct out; exact I.
Qed.

Lemma always_lift_bind {A B} (P : event -> Prop) (m : Py A) (run : Run)
                       (k : A -> Prog B) :
  (forall a, m run = Ok a -> always P (k a)) -> always P (pbind (lift m run) k).
Proof.
  intros H. unfold lift. destruct (m run) as [a|e]; cbn [pbind]; [|exact I].
  apply H. reflexivity.
Qed.

Lemma always_for_all {A} (P : event -> Prop) (body : A -> Prog unit)
                     (items : list A) :
  (forall x, always P (body x)) -> always P (for_all body items).
Proof.
  intros H. induction items as [|x items IH]; cbn [for_all]; [exact I|].
  apply always_pbind; [apply H | intros _; exact IH].
Qed.

(* ================================================================== *)
(** * Paths of the generated module *)

Lemma slug_no_slash (s : str) : Forall slug_char s -> ~ In 47 s.
Proof.
  intros F H. rewrite Forall_forall in F. destruct (F 47 H) as [E|E];
    discriminate.
Qed.

Lemma slug_no_dot (s : str) : Forall slug_char s -> ~ In 46 s.
Proof.
  intros F H. rewrite Forall_forall in F. destruct (F 46 H) as [E|E];
    discriminate.
Qed.

Lemma hex_no_slash (s : str) : Forall lower_hex s -> ~ In 47 s.
Proof.
  intros F H. rewrite Forall_forall in F. specialize (F 47 H).
  unfold lower_hex in F. lia.
Qed.

Lemma long_segment_safe (s : str) :
  (3 <= List.length s)%nat -> ~ In 47 s -> safe_segment s.
Proof.
  intros L H. repeat split; auto; intros ->; cbn in L; lia.
Qed.

Lemma no_slash_app (a b : str) : ~ In 47 a -> ~ In 47 b -> ~ In 47 (a ++ b).
Proof. intros Ha Hb H. apply in_app_or in H. tauto. Qed.

(** A file name made of a fixed prefix, a slug and a fixed extension. *)
Lemma named_segment_safe (pre s post : str) :
  ~ In 47 pre -> ~ In 47 post -> (3 <= List.length post)%nat ->
  Forall slug_char s -> safe_segment (pre ++ s ++ post).
Proof.
  intros Hpre Hpost L F. apply long_segment_safe.
  - rewrite !length_app. lia.
  - auto using no_slash_app, slug_no_slash.
Qed.

Lemma slug_segment_safe (s : str) :
  Forall slug_char s -> s <> [] -> safe_segment s.
Proof.
  intros F Hne. pose proof (slug_no_dot s F) as Hd.
  repeat split; auto using slug_no_slash;
    intros ->; apply Hd; cbn; auto.
Qed.

Lemma path_join_nonempty (p : path) (s : str) :
  s <> [] -> path_join p s = p ++ [s].
Proof. destruct s; [congruence | reflexivity]. Qed.

Lemma inside_refl (root : path) : inside root root.
Proof. exists []. split; [symmetry; apply app_nil_r | constructor]. Qed.

Lemma inside_join (root p : path) (s : str) :
  inside root p -> safe_segment s -> below root (path_join p s).
Proof.
  intros (rest & -> & F) Hs. rewrite path_join_nonempty by apply Hs.
  exists (rest ++ [s]). split; [symmetry; apply app_assoc|]. split.
  - destruct rest; discriminate.
  - apply Forall_app. split; [exact F | constructor; [exact Hs | constructor]].
Qed.

Lemma below_inside (root p : path) : below root p -> inside root p.
Proof. intros (rest & E & _ & F). exists rest. auto. Qed.

Section GeneratedPaths.
Context {cm : CaseMapping}.

Lemma module_dir_inside (output_dir : path) (module_name : str) :
  inside output_dir (path_join output_dir (slugify module_name)).
Proof.
  destruct (slugify module_name) as [|c s] eqn:E; [apply inside_refl|].
  rewrite <- E. apply below_inside, inside_join; [apply inside_refl|].
  apply slug_segment_safe; [apply slugify_props | rewrite E; discriminate].
Qed.

Lemma group_name_safe (suffix : str) :
  Forall lower_hex suffix -> safe_segment ((lit "group_" ++ suffix) ++ lit ".json").
Proof.
  intros F. apply long_segment_safe.
  - rewrite !length_app. cbn [List.length lit]. lia.
  - apply no_slash_app; [|cbn; lia].
    apply no_slash_app; [cbn; lia | apply hex_no_slash; exact F].
Qed.

Lemma group_key_segment_safe (module_name : str) (run : Run) (key : str) :
  generate_group_key module_name run = Ok key ->
  safe_segment (key ++ lit ".json").
Proof.
  intros H. rewrite generate_group_key_eq in H.
  destruct (str_encode module_name) as [data|e]; [|discriminate].
  assert (E : key = lit "group_" ++ firstn 8 (MD5.hexdigest data))
    by congruence.
  rewrite E. apply group_name_safe. apply hash_suffix_shape.
Qed.

Ltac literal_no_slash := cbn; lia.

Lemma always_generate (output_dir : path) (module_name : str)
                      (fields : list Field) (run : Run) :
  always (generate_event output_dir
            (path_join output_dir (slugify module_name)))
         (generate output_dir module_name fields run).
Proof.
  pose proof (module_dir_inside output_dir module_name) as Hdir.
  destruct (slugify_props module_name) as (Fslug & _).
  set (md := path_join output_dir (slugify module_name)) in *.
  assert (Hmk : forall s out,
             safe_segment s ->
             generate_event output_dir md
               (Event (Mkdir (path_join md s) false true) out)).
  { intros s out Hs. cbn [generate_event]. split; [reflexivity|]. split.
    - apply below_inside, inside_join; assumption.
    - right. exists s. repeat split; try apply Hs.
      apply path_join_nonempty. apply Hs. }
  assert (Hfile : forall d s content out,
             safe_segment d -> safe_segment s ->
             generate_event output_dir md
               (Event (WriteText (path_join (path_join md d) s) content) out)).
  { intros d s content out Hd Hs. cbn [generate_event]. split.
    - apply inside_join; [|exact Hs].
      apply below_inside, inside_join; [apply inside_refl | exact Hd].
    - apply inside_join; [|exact Hs].
      apply below_inside, inside_join; assumption. }
  assert (Htop : forall s content out,
             safe_segment s ->
             generate_event output_dir md
               (Event (WriteText (path_join md s) content) out)).
  { intros s content out Hs. cbn [generate_event]. split.
    - apply inside_join; [apply inside_refl | exact Hs].
    - apply inside_join; assumption. }
  assert (Hinc : safe_segment (lit "includes"))
    by (apply long_segment_safe; [cbn; lia | literal_no_slash]).
  assert (Htpl : safe_segment (lit "templates"))
    by (apply long_segment_safe; [cbn; lia | literal_no_slash]).
  assert (Hacf : safe_segment (lit "acf-json"))
    by (apply long_segment_safe; [cbn; lia | literal_no_slash]).
  assert (Hnamed : forall pre,
             ~ In 47 pre ->
             safe_segment (pre ++ slugify module_name ++ lit ".php")).
  { intros pre Hpre. apply named_segment_safe; auto;
      [literal_no_slash | cbn; lia]. }
  unfold generate. cbv zeta. fold md.
  apply always_pbind.
  { apply always_call. intros out. cbn [generate_event].
    split; [reflexivity|]. split; [exact Hdir|]. left. split; reflexivity. }
  intros _.
  apply always_pbind; [apply always_call; intros out; apply Hmk; exact Hacf|].
  intros _.
  apply always_pbind; [apply always_call; intros out; exact I|].
  intros generated_at.
  (* cpt *)
  apply always_pbind.
  { unfold _generate_cpt. cbn [ctx_slug].
    apply always_pbind; [apply always_call; intros out; exact I|]. intros c.
    apply always_pbind; [apply always_call; intros out; apply Hmk; exact Hinc|].
    intros _.
    apply always_call. intros out. apply Hfile; [exact Hinc|].
    apply Hnamed. literal_no_slash. }
  intros _.
  (* acf-json *)
  apply always_pbind.
  { unfold _generate_acf_json. cbn [ctx_slug ctx_module_name].
    apply always_lift_bind. intros doc Hdoc.
    rewrite build_acf_json_eq in Hdoc.
    destruct (for_each _ _ run) as [acf|e]; [|discriminate].
    destruct (generate_group_key module_name run) as [key|e] eqn:Hk;
      [|discriminate].
    assert (Hitem : dict_item (lit "key") doc = Done (PStr key))
      by (injection Hdoc as <-; reflexivity).
    rewrite Hitem. cbn [pbind str_of].
    apply always_pbind; [apply always_call; intros out; exact I|]. intros text.
    apply always_call. intros out. apply Hfile; [exact Hacf|].
    eapply group_key_segment_safe. exact Hk. }
  intros _.
  (* single *)
  apply always_pbind.
  { unfold _generate_single_template. cbn [ctx_slug].
    apply always_pbind; [apply always_call; intros out; exact I|]. intros c.
    apply always_pbind; [apply always_call; intros out; apply Hmk; exact Htpl|].
    intros _.
    apply always_call. intros out. apply Hfile; [exact Htpl|].
    apply Hnamed. literal_no_slash. }
  intros _.
  (* archive *)
  apply always_pbind.
  { unfold _generate_archive_template. cbn [ctx_slug].
    apply always_pbind; [apply always_call; intros out; exact I|]. intros c.
    apply always_pbind; [apply always_call; intros out; apply Hmk; exact Htpl|].
    intros _.
    apply always_call. intros out. apply Hfile; [exact Htpl|].
    apply Hnamed. literal_no_slash. }
  intros _.
  (* shortcode *)
  apply always_pbind.
  { unfold _generate_shortcode. cbn [ctx_slug].
    apply always_pbind; [apply always_call; intros out; exact I|]. intros c.
    apply always_pbind; [apply always_call; intros out; apply Hmk; exact Hinc|].
    intros _.
    apply always_call. intros out. apply Hfile; [exact Hinc|].
    apply Hnamed. literal_no_slash. }
  intros _.
  (* main plugin file *)
  apply always_pbind.
  { unfold _generate_main_plugin. cbn [ctx_slug].
    apply always_pbind; [apply always_call; intros out; exact I|]. intros c.
    apply always_call. intros out. apply Htop.
    apply (Hnamed []). intros []. }
  intros _.
  (* readme *)
  apply always_pbind.
  { unfold _generate_readme.
    apply always_pbind; [apply always_call; intros out; exact I|]. intros c.
    apply always_call. intros out. apply Htop.
    apply long_segment_safe; [cbn; lia | literal_no_slash]. }
  intros _. exact I.
Qed.

(** X12.  Whatever the module name, the fields and the answers of the
    outside, the calls of [generate] to the file system are these only.
    It asks for the module directory, which is the output directory or a
    single safe segment below it, with [parents=True]: that one call lets
    the file system create the output directory and whatever is missing
    above it.  It asks for directories directly inside the module
    directory with [parents=False].  Both kinds are asked with
    [exist_ok=True].  It writes files below the module directory.  Every
    segment it adds to the output directory is not empty, holds no ['/']
    and is neither ["."] nor [".."].  Its other calls ask for the time,
    for renderings and for the JSON text. *)
Theorem generate_stays_inside (w : world) (output_dir : path)
                              (module_name : str) (fields : list Field)
                              (run : Run) :
  ((slugify module_name = []
    /\ path_join output_dir (slugify module_name) = output_dir)
   \/ (safe_segment (slugify module_name)
       /\ path_join output_dir (slugify module_name)
          = output_dir ++ [slugify module_name]))
  /\ inside output_dir (path_join output_dir (slugify module_name))
  /\ Forall (generate_event output_dir
               (path_join output_dir (slugify module_name)))
            (fst (exec w (generate output_dir module_name fields run) [])).
Proof.
  split; [|split; [apply module_dir_inside|]].
  - destruct (slugify module_name) as [|c s] eqn:E.
    + left. split; reflexivity.
    + right. rewrite <- E. split.
      * apply slug_segment_safe; [apply slugify_props | rewrite E; discriminate].
      * apply path_join_nonempty. rewrite E. discriminate.
  - apply always_exec; [apply always_generate | constructor].
Qed.

End GeneratedPaths.

(* ================================================================== *)
(** * [generate] when every call returns *)

Lemma build_acf_json_key (module_name slug : str) (fields : list Field)
                         (run : Run) (doc : dict) :
  build_acf_json module_name slug fields run = Ok doc ->
  exists key,
    generate_group_key module_name run = Ok key
    /\ dict_item (lit "key") doc = Done (PStr key).
Proof.
  intros Hdoc. rewrite build_acf_json_eq in Hdoc.
  destruct (for_each _ _ run) as [acf|e]; [|discriminate].
  destruct (generate_group_key module_name run) as [key|e]; [|discriminate].
  exists key. split; [reflexivity|]. injection Hdoc as <-. reflexivity.
Qed.

Ltac step H :=
  repeat rewrite exec_pbind; rewrite exec_call;
  match goal with
  | |- context [?w ?R ?o ?past] =>
      match type of H with
      | answers w =>
          let r := fresh "r" in
          let Hr := fresh "Hr" in
          destruct (H R o past) as [r Hr]; rewrite Hr; clear Hr;
          match type of r with
          | unit => destruct r
          | _ => idtac
          end;
          cbv beta iota
      end
  end.

Section GenerateScript.
Context {cm : CaseMapping}.

Lemma generate_runs (w : world) (output_dir : path) (module_name : str)
                    (fields : list Field) (run : Run) :
  answers w -> encodable module_name -> Forall renderable fields ->
  snd (exec w (generate output_dir module_name fields run) [])
  = Returned (path_join output_dir (slugify module_name))
  /\ generate_script output_dir module_name fields run
       (fst (exec w (generate output_dir module_name fields run) [])).
Proof.
  intros Hw Hm Hf.
  destruct (build_acf_json_ok module_name (slugify module_name) fields run Hm Hf)
    as (doc & entries & Hdoc & _).
  destruct (build_acf_json_key _ _ _ _ _ Hdoc) as (key & Hk & Hitem).
  unfold generate_script, generate. cbv zeta.
  step Hw. step Hw. step Hw.
  unfold _generate_cpt at 1 2. cbn [ctx_slug].
  step Hw. step Hw. step Hw.
  unfold _generate_acf_json at 1 2. cbn [ctx_slug ctx_module_name].
  rewrite ?exec_pbind. unfold lift at 1 2. rewrite Hdoc. cbn [exec].
  rewrite Hitem. cbn [pbind str_of].
  step Hw. step Hw.
  unfold _generate_single_template at 1 2. cbn [ctx_slug].
  step Hw. step Hw. step Hw.
  unfold _generate_archive_template at 1 2. cbn [ctx_slug].
  step Hw. step Hw. step Hw.
  unfold _generate_shortcode at 1 2. cbn [ctx_slug].
  step Hw. step Hw. step Hw.
  unfold _generate_main_plugin at 1 2. cbn [ctx_slug].
  step Hw. step Hw.
  unfold _generate_readme at 1 2.
  step Hw. step Hw.
  cbn [exec fst snd app]. split; [reflexivity|].
  do 10 eexists. split; [reflexivity|]. split; [exact Hk|]. reflexivity.
Qed.

(** X13.  When every call returns, the module name can be encoded and the
    fields are renderable, [generate] returns the module directory,
    [output_dir / slug], after exactly this: it creates the module
    directory (with parents) and [acf-json], reads the time once, then
    for the seven artefacts in fixed order renders, creates [includes] or
    [templates] where needed, and writes: every template is rendered with
    the same context, each file holds what was rendered for it, and the
    schema file is named after the group key and holds the JSON text of
    the document of [build_acf_json]. *)
Theorem generate_success (w : world) (output_dir : path) (module_name : str)
                         (fields : list Field) (run : Run) :
  answers w -> encodable module_name -> Forall renderable fields ->
  snd (exec w (generate output_dir module_name fields run) [])
  = Returned (path_join output_dir (slugify module_name))
  /\ generate_script output_dir module_name fields run
       (fst (exec w (generate output_dir module_name fields run) [])).
Proof. apply generate_runs. Qed.

End GenerateScript.

Lemma plain_world_answers : answers plain_world.
Proof. intros R o past. destruct o; eexists; reflexivity. Qed.

Lemma generate_success_witness :
  snd (exec plain_world
         (generate [lit "output"] (lit "Produit") produit_fields run0) [])
  = Returned (path_join [lit "output"] (slugify (lit "Produit")))
  /\ generate_script [lit "output"] (lit "Produit") produit_fields run0
       (fst (exec plain_world
               (generate [lit "output"] (lit "Produit") produit_fields run0)
               [])).
Proof.
  apply (generate_success plain_world [lit "output"] (lit "Produit")
           produit_fields run0 plain_world_answers).
  - unfold encodable. repeat (apply Forall_cons; [reflexivity|]). constructor.
  - unfold produit_fields, renderable, encodable.
    repeat (apply Forall_cons;
            [ split;
              [ repeat (apply Forall_cons; [reflexivity|]); constructor
              | simpl; tauto ]
            |]).
    constructor.
Defined.

(* ================================================================== *)
(** * The seven files *)

Lemma path_in_dir (d : path) (dir seg : str) :
  dir <> [] -> seg <> [] ->
  path_join (path_join d dir) seg = d ++ [dir; seg].
Proof.
  intros Hd Hs. rewrite !path_join_nonempty by assumption.
  rewrite <- app_assoc. reflexivity.
Qed.

Lemma app_not_nil_r (a b : str) : b <> [] -> a ++ b <> [].
Proof. intros Hb H. apply app_eq_nil in H. tauto. Qed.

Lemma slug_php_not_readme (slug : str) :
  Forall slug_char slug -> slug ++ lit ".php" <> lit "README.md".
Proof.
  intros F H. destruct slug as [|c s]; [discriminate|].
  cbn in H. injection H as Hc _. subst c.
  inversion F as [|? ? [E|E] _]; discriminate.
Qed.

Lemma NoDup_map_app {A} (d : list A) (l : list (list A)) :
  NoDup l -> NoDup (map (app d) l).
Proof.
  induction 1 as [|x l Hx _ IH]; cbn [map]; constructor; [|exact IH].
  intros H. apply in_map_iff in H as (y & E & Hy).
  apply app_inv_head in E. subst y. contradiction.
Qed.

(** The names of the seven files, relative to the module directory. *)
Lemma artefact_names_distinct (slug key : str) :
  Forall slug_char slug ->
  NoDup [ [lit "includes"; lit "cpt-" ++ slug ++ lit ".php"];
          [lit "acf-json"; key ++ lit ".json"];
          [lit "templates"; lit "single-" ++ slug ++ lit ".php"];
          [lit "templates"; lit "archive-" ++ slug ++ lit ".php"];
          [lit "includes"; lit "shortcode-" ++ slug ++ lit ".php"];
          [slug ++ lit ".php"];
          [lit "README.md"] ].
Proof.
  intros F. pose proof (slug_php_not_readme slug F) as Hr.
  repeat (apply NoDup_cons;
          [ cbn [In]; intros H;
            repeat (destruct H as [H|H];
                    [ try (cbn in H; discriminate);
                      try (exfalso; apply Hr; injection H as H;
                           first [exact H | symmetry; exact H]) |]);
            try exact H
          |]).
  apply NoDup_nil.
Qed.

Section SevenFiles.
Context {cm : CaseMapping}.

(** X14.  When every call returns, the module name can be encoded and the
    fields are renderable, [generate] writes exactly seven files, to
    seven different paths: no artefact overwrites another, whatever the
    module name. *)
Theorem generate_seven_files (w : world) (output_dir : path)
                             (module_name : str) (fields : list Field)
                             (run : Run) :
  answers w -> encodable module_name -> Forall renderable fields ->
  List.length
    (written (fst (exec w (generate output_dir module_name fields run) [])))
  = 7%nat
  /\ NoDup
       (written (fst (exec w (generate output_dir module_name fields run) []))).
Proof.
  intros Hw Hm Hf.
  destruct (generate_runs w output_dir module_name fields run Hw Hm Hf)
    as (_ & S).
  destruct S as (generated_at & cpt & doc & key & json & single & archive
                 & shortcode & plugin & readme & S).
  cbv zeta in S. destruct S as (_ & _ & ->). cbn [written].
  split; [reflexivity|].
  destruct (slugify_props module_name) as (F & _).
  set (slug := slugify module_name) in *.
  set (d := path_join output_dir slug).
  assert (Hphp : forall pre, pre ++ slug ++ lit ".php" <> []).
  { intros pre. apply app_not_nil_r, app_not_nil_r. discriminate. }
  rewrite (path_in_dir d (lit "includes") (lit "cpt-" ++ slug ++ lit ".php"))
    by (try discriminate; apply Hphp).
  rewrite (path_in_dir d (lit "acf-json") (key ++ lit ".json"))
    by (try discriminate; apply app_not_nil_r; discriminate).
  rewrite (path_in_dir d (lit "templates") (lit "single-" ++ slug ++ lit ".php"))
    by (try discriminate; apply Hphp).
  rewrite (path_in_dir d (lit "templates") (lit "archive-" ++ slug ++ lit ".php"))
    by (try discriminate; apply Hphp).
  rewrite (path_in_dir d (lit "includes")
             (lit "shortcode-" ++ slug ++ lit ".php"))
    by (try discriminate; apply Hphp).
  rewrite (path_join_nonempty d (slug ++ lit ".php"))
    by (apply (Hphp [])).
  rewrite (path_join_nonempty d (lit "README.md")) by discriminate.
  apply (NoDup_map_app d
           [ [lit "includes"; lit "cpt-" ++ slug ++ lit ".php"];
             [lit "acf-json"; key ++ lit ".json"];
             [lit "templates"; lit "single-" ++ slug ++ lit ".php"];
             [lit "templates"; lit "archive-" ++ slug ++ lit ".php"];
             [lit "includes"; lit "shortcode-" ++ slug ++ lit ".php"];
             [slug ++ lit ".php"];
             [lit "README.md"] ]).
  apply artefact_names_distinct. exact F.
Qed.

End SevenFiles.

Lemma generate_seven_files_witness :
  List.length
    (written (fst (exec plain_world
                     (generate [lit "output"] (lit "Produit") produit_fields
                        run0) [])))
  = 7%nat.
Proof.
  apply (generate_seven_files plain_world [lit "output"] (lit "Produit")
           produit_fields run0 plain_world_answers).
  - unfold encodable. repeat (apply Forall_cons; [reflexivity|]). constructor.
  - unfold produit_fields, renderable, encodable.
    repeat (apply Forall_cons;
            [ split;
              [ repeat (apply Forall_cons; [reflexivity|]); constructor
              | simpl; tauto ]
            |]).
    constructor.
Defined.

(* ================================================================== *)
(** * The command [module] *)

Lemma exec_try_except {A} (w : world) (body : Prog A)
                      (handler : failure -> Prog A) (past : list event) :
  exec w (try_except body handler) past
  = match exec w body past with
    | (trace, Returned a) => (trace, Returned a)
    | (trace, Failed (SystemExit code)) => (trace, Failed (SystemExit code))
    | (trace, Failed f) => exec w (handler f) trace
    end.
Proof.
  revert past. induction body as [a|f|R o c IH]; intros past.
  - reflexivity.
  - destruct f; reflexivity.
  - cbn [try_except exec]. apply IH.
Qed.

Lemma clean_exec {A} (w : world) (p : Prog A) (past : list event) :
  (forall (R : Type) (o : op R) past code, w R o past <> Failed (SystemExit code)) ->
  clean p -> forall code, snd (exec w p past) <> Failed (SystemExit code).
Proof.
  intros Hw. revert past. induction p as [a|f|R o c IH]; intros past Hp code;
    cbn [exec snd].
  - discriminate.
  - intros H. injection H as H. exact (Hp code H).
  - apply IH. apply Hp. intros c'. apply Hw.
Qed.

Lemma clean_pbind {A B} (p : Prog A) (k : A -> Prog B) :
  clean p -> (forall a, clean (k a)) -> clean (pbind p k).
Proof.
  intros Hp Hk. induction p as [a|f|R o c IH]; cbn [pbind clean]; auto.
Qed.

Lemma clean_call {R} (o : op R) : clean (call o).
Proof.
  intros out Hout. destruct out as [r|f]; [exact I|].
  intros code ->. exact (Hout code eq_refl).
Qed.

Lemma clean_lift {A} (m : Py A) (run : Run) : clean (lift m run).
Proof. unfold lift. destruct (m run); [exact I | discriminate]. Qed.

Lemma clean_for_all {A} (body : A -> Prog unit) (items : list A) :
  (forall x, clean (body x)) -> clean (for_all body items).
Proof.
  intros H. induction items as [|x items IH]; cbn [for_all]; [exact I|].
  apply clean_pbind; [apply H | intros _; exact IH].
Qed.

Lemma clean_dict_item (key : str) (d : dict) : clean (dict_item key d).
Proof. unfold dict_item. destruct (dict_get key d); [exact I | discriminate]. Qed.

Lemma clean_str_of (v : pyval) : clean (str_of v).
Proof. destruct v; try exact I; discriminate. Qed.

#[local] Hint Resolve clean_call clean_lift clean_dict_item clean_str_of : py.

Section ModuleCommand.
Context {cm : CaseMapping}.

Lemma clean_generate (output_dir : path) (module_name : str)
                     (fields : list Field) (run : Run) :
  clean (generate output_dir module_name fields run).
Proof.
  unfold generate, _generate_cpt, _generate_acf_json,
    _generate_single_template, _generate_archive_template,
    _generate_shortcode, _generate_main_plugin, _generate_readme.
  cbv zeta.
  repeat (apply clean_pbind; [auto with py | intros ?]);
    try exact I; auto with py;
    repeat (apply clean_pbind; [auto with py | intros ?]); auto with py.
Qed.

Lemma clean_list_file (module_dir file : path) :
  clean (list_file module_dir file).
Proof.
  unfold list_file. apply clean_pbind; [auto with py|]. intros [|]; [|exact I].
  destruct (relative_to file module_dir); [auto with py | discriminate].
Qed.

Lemma parse_field_raises (raw : str) (run : Run) (e : exception) :
  parse_field raw run = Raise e -> exists message, e = BadParameter message.
Proof.
  unfold parse_field. destruct (split_once colon raw) as [[n t]|].
  - destruct (supported t); cbn [negb]; [discriminate|].
    intros H. inversion H. eexists; reflexivity.
  - intros H. inversion H. eexists; reflexivity.
Qed.

(** The parsing loop stops at the first token that is refused. *)
Lemma parse_all_stops (before : list str) (bad : str) (after : list str)
                      (parsed : list Field) (run : Run) (message : str) :
  Forall (fun token => exists field, parse_field token run = Ok field) before ->
  parse_field bad run = Raise (BadParameter message) ->
  parse_all (before ++ bad :: after) parsed run
  = (call (Echo [Text ([10060] ++ lit " Erreur: " ++ message)] true) >>
     Abort (SystemExit 1)).
Proof.
  intros Hb Hbad. revert parsed.
  induction Hb as [|token before [field Hf] _ IH]; intros parsed;
    cbn [app parse_all].
  - rewrite Hbad. reflexivity.
  - rewrite Hf. apply IH.
Qed.

(** X15.  When a token is refused by [parse_field], the command [module]
    does nothing but print: whatever the outside answers, it makes no
    call to the file system or the template engine; with a working
    console it prints the start line, then on standard error the message
    of the first refused token, and exits with code 1, the tokens after
    it not being looked at. *)
Theorem module_rejects_before_writing
  (w : world) (module_name : str) (before : list str) (bad : str)
  (after : list str) (output : str) (run : Run) (message : str) :
  Forall (fun token => exists field, parse_field token run = Ok field) before ->
  parse_field bad run = Raise (BadParameter message) ->
  Forall echo_event
    (fst (exec w (module module_name (before ++ bad :: after) output run) []))
  /\ ((forall msg err past, w _ (Echo msg err) past = Returned tt) ->
      exec w (module module_name (before ++ bad :: after) output run) []
      = ([ said ([128640] ++ lit " G" ++ [233] ++ lit "n" ++ [233]
                   ++ lit "ration du module '" ++ module_name ++ lit "'...");
           Event (Echo [Text ([10060] ++ lit " Erreur: " ++ message)] true)
                 (Returned tt) ],
         Failed (SystemExit 1))).
Proof.
  intros Hb Hbad. unfold module.
  rewrite (parse_all_stops before bad after [] run message Hb Hbad).
  rewrite !exec_pbind, !exec_call. split.
  - destruct (w unit _ []) as [[]|f] eqn:E1; cbn [fst].
    + rewrite !exec_pbind, exec_call.
      destruct (w unit _ ([] ++ _)) as [[]|f]; cbn [exec fst app];
        repeat constructor.
    + repeat constructor.
  - intros He. rewrite He. rewrite !exec_pbind, exec_call, He.
    reflexivity.
Qed.

Lemma exec_for_all_returns (w : world) {A} (body : A -> Prog unit)
                           (items : list A) (past : list event) :
  (forall x past, snd (exec w (body x) past) = Returned tt) ->
  snd (exec w (for_all body items) past) = Returned tt.
Proof.
  intros Hb. revert past. induction items as [|x items IH]; intros past;
    cbn [for_all]; [reflexivity|].
  rewrite exec_pbind. specialize (Hb x past).
  destruct (exec w (body x) past) as [t [[]|f]]; cbn [snd] in Hb;
    [apply IH | discriminate].
Qed.

Lemma parse_all_outcome (w : world) (fields : list str) (parsed : list Field)
                        (run : Run) (past : list event) :
  (forall msg err past, w _ (Echo msg err) past = Returned tt) ->
  (exists all, exec w (parse_all fields parsed run) past = (past, Returned all))
  \/ snd (exec w (parse_all fields parsed run) past) = Failed (SystemExit 1).
Proof.
  intros He. revert parsed. induction fields as [|token fields IH];
    intros parsed; cbn [parse_all].
  - left. eexists. reflexivity.
  - destruct (parse_field token run) as [field|e] eqn:E; [apply IH|].
    destruct (parse_field_raises _ _ _ E) as [message ->].
    right. rewrite exec_pbind, exec_call, He. reflexivity.
Qed.

(** X16.  With a console, a path resolution and a template environment
    that work, and calls that raise no [SystemExit], the command [module]
    ends in one of two ways only: it returns, or it exits with code 1.
    No exception of the parser, the schema builder, the template engine or
    the file system escapes it. *)
Theorem module_exit_codes (w : world) (module_name : str)
                          (fields : list str) (output : str) (run : Run) :
  console_works w ->
  snd (exec w (module module_name fields output run) []) = Returned tt
  \/ snd (exec w (module module_name fields output run) [])
     = Failed (SystemExit 1).
Proof.
  intros (He & Hr & Hj & Hx). unfold module.
  rewrite exec_pbind, exec_call, He. rewrite exec_pbind.
  match goal with
  | |- context [exec w (parse_all fields [] run) ?p] =>
      destruct (parse_all_outcome w fields [] run p He) as [[parsed Hp]|Hp]
  end.
  2:{ right. destruct (exec w (parse_all fields [] run) _) as [t [a|f]];
      cbn [snd] in Hp; [discriminate|]. injection Hp as ->. reflexivity. }
  rewrite Hp. rewrite exec_pbind, exec_call, He. rewrite exec_pbind.
  match goal with
  | |- context [exec w (for_all ?b ?l) ?p] =>
      assert (Hl : snd (exec w (for_all b l) p) = Returned tt)
        by (apply exec_for_all_returns; intros x past;
            rewrite exec_call, He; reflexivity);
      destruct (exec w (for_all b l) p) as [t1 o1] eqn:E1
  end.
  cbn [snd] in Hl. subst o1.
  rewrite exec_pbind, exec_call.
  destruct (Hr output t1) as [output_path ->].
  rewrite exec_pbind, exec_call, Hj.
  rewrite exec_try_except.
  match goal with
  | |- context [exec w ?body ?p] =>
      pose proof (clean_exec w body p Hx) as Hc;
      destruct (exec w body p) as [t2 o2] eqn:E2
  end.
  cbn [snd] in Hc.
  assert (Hclean : forall code, o2 <> Failed (SystemExit code)).
  { apply Hc.
    apply clean_pbind; [apply clean_generate|]. intros module_dir.
    repeat (apply clean_pbind; [auto with py | intros ?]).
    apply clean_for_all. apply clean_list_file. }
  destruct o2 as [[]|f].
  - left. reflexivity.
  - right. destruct f as [e|kind|code].
    + rewrite exec_pbind, exec_call, He. reflexivity.
    + rewrite exec_pbind, exec_call, He. reflexivity.
    + exfalso. exact (Hclean code eq_refl).
Qed.

End ModuleCommand.

Lemma plain_world_console : console_works plain_world.
Proof.
  repeat split.
  - intros output past. eexists. reflexivity.
  - intros R o past code. destruct o; discriminate.
Qed.

Lemma module_rejects_before_writing_witness :
  exec plain_world
    (module (lit "Produit")
       ([lit "titre:text"] ++ lit "prix:currency" :: [lit "no separator"])
       (lit "output") run0) []
  = ([ said ([128640] ++ lit " G" ++ [233] ++ lit "n" ++ [233]
               ++ lit "ration du module '" ++ lit "Produit" ++ lit "'...");
       Event (Echo [Text ([10060] ++ lit " Erreur: "
                            ++ unsupported_message (lit "currency"))] true)
             (Returned tt) ],
     Failed (SystemExit 1)).
Proof.
  assert (Hb : Forall (fun token => exists field,
                           parse_field token run0 = Ok field)
                 [lit "titre:text"]).
  { constructor; [eexists; reflexivity | constructor]. }
  apply (proj2 (module_rejects_before_writing plain_world (lit "Produit")
                  [lit "titre:text"] (lit "prix:currency")
                  [lit "no separator"] (lit "output") run0
                  (unsupported_message (lit "currency")) Hb eq_refl)).
  intros msg err past. reflexivity.
Defined.

Lemma module_exit_codes_witness :
  snd (exec plain_world
         (module (lit "Produit") [lit "titre:text"] (lit "output") run0) [])
  = Returned tt
  \/ snd (exec plain_world
            (module (lit "Produit") [lit "titre:text"] (lit "output") run0) [])
     = Failed (SystemExit 1).
Proof.
  apply (module_exit_codes plain_world (lit "Produit") [lit "titre:text"]
           (lit "output") run0 plain_world_console).
Defined.

(* ================================================================== *)
(** * The command [list-types] *)

Lemma exec_type_lines (w : world) (entries : list (str * dict))
                      (past : list event) :
  (forall msg err past, w _ (Echo msg err) past = Returned tt) ->
  Forall (fun entry => exists label,
              dict_get (lit "label") (snd entry) = Some (PStr label)) entries ->
  exec w
    (for_all (fun '(type_name, config) =>
                label_value <-- dict_item (lit "label") config ;;
                label <-- str_of label_value ;;
                call (Echo [Text (lit "  " ++ str_ljust 12 type_name
                                    ++ lit " - " ++ label)] false))
             entries) past
  = (past ++ map said (map type_line entries), Returned tt).
Proof.
  intros He F. revert past.
  induction F as [|[tag config] entries [label Hl] _ IH]; intros past;
    cbn [for_all map].
  - rewrite app_nil_r. reflexivity.
  - cbn [snd] in Hl. rewrite exec_pbind. unfold dict_item at 1. rewrite Hl.
    cbn [pbind str_of]. rewrite exec_call, He. rewrite IH.
    unfold type_line at 2. cbn [fst snd]. rewrite Hl.
    unfold str_ljust, said. rewrite <- !app_assoc. reflexivity.
Qed.

Lemma registry_labels :
  Forall (fun entry =>
            (exists label,
                dict_get (lit "label") (snd entry) = Some (PStr label)
                /\ type_line entry
                   = lit "  " ++ fst entry
                       ++ repeat 32 (12 - List.length (fst entry))
                       ++ lit " - " ++ label)
            /\ (List.length (fst entry) <= 12)%nat)
         SUPPORTED_TYPES.
Proof.
  unfold SUPPORTED_TYPES.
  repeat (apply Forall_cons;
          [ split; [eexists; split; reflexivity | cbn; lia] |]).
  constructor.
Qed.

(** X17.  With a working console, [list-types] prints a heading, then one
    line per entry of the registry, in the order of the registry, then a
    usage line.  Each line is two spaces, the tag padded with spaces to
    twelve columns, [" - "] and the label of the entry; every tag fits in
    the twelve columns, so the labels line up; and the tags printed are
    exactly the types [parse_field] accepts. *)
Theorem list_types_lines (w : world) :
  (forall msg err past, w _ (Echo msg err) past = Returned tt) ->
  exec w list_types []
  = (map said
       ([ [128203] ++ lit " Types de champs support" ++ [233] ++ lit "s:"
            ++ [10] ]
          ++ map type_line SUPPORTED_TYPES
          ++ [ [10; 128161]
                 ++ lit " Utilisation: wp-gen module NomModule champ:type" ]),
     Returned tt)
  /\ Forall (fun entry =>
               (exists label,
                   dict_get (lit "label") (snd entry) = Some (PStr label)
                   /\ type_line entry
                      = lit "  " ++ fst entry
                          ++ repeat 32 (12 - List.length (fst entry))
                          ++ lit " - " ++ label)
               /\ (List.length (fst entry) <= 12)%nat)
            SUPPORTED_TYPES
  /\ (forall tag, In tag (map fst SUPPORTED_TYPES) <-> supported tag = true).
Proof.
  intros He. split; [|split].
  - unfold list_types.
    rewrite exec_pbind, exec_call, He. rewrite exec_pbind, exec_type_lines.
    + rewrite exec_call, He. cbn [app map]. rewrite map_app. reflexivity.
    + exact He.
    + eapply Forall_impl; [|exact registry_labels].
      intros entry [[label [H _]] _]. exists label. exact H.
  - exact registry_labels.
  - intros tag. symmetry. apply supported_In.
Qed.

Lemma list_types_lines_witness :
  exec plain_world list_types []
  = (map said
       ([ [128203] ++ lit " Types de champs support" ++ [233] ++ lit "s:"
            ++ [10] ]
          ++ map type_line SUPPORTED_TYPES
          ++ [ [10; 128161]
                 ++ lit " Utilisation: wp-gen module NomModule champ:type" ]),
     Returned tt).
Proof.
  apply (proj1 (list_types_lines plain_world (fun _ _ _ => eq_refl))).
Defined.

(* ================================================================== *)
(** * The template context *)

Section TemplateContext.
Context {cm : CaseMapping}.

Lemma always_render (output_dir : path) (module_name : str)
                    (fields : list Field) (run : Run) :
  always (render_event module_name fields)
         (generate output_dir module_name fields run).
Proof.
  unfold generate, _generate_cpt, _generate_acf_json,
    _generate_single_template, _generate_archive_template,
    _generate_shortcode, _generate_main_plugin, _generate_readme.
  cbv zeta.
  assert (Hcall : forall R (o : op R),
             (forall out, render_event module_name fields (Event o out)) ->
             always (render_event module_name fields) (call o))
    by (intros R o; apply always_call).
  assert (Hrender : forall template generated_at out,
             In template [lit "cpt.php.j2"; lit "single.php.j2";
                          lit "archive.php.j2"; lit "shortcode.php.j2";
                          lit "plugin.php.j2"; lit "README.md.j2"] ->
             render_event module_name fields
               (Event (RenderTemplate template
                         {| ctx_module_name := module_name;
                            ctx_slug := slugify module_name;
                            ctx_snake_name := to_snake_case module_name;
                            ctx_prefix := firstn 3 (to_snake_case module_name);
                            ctx_fields := fields;
                            ctx_field_types := SUPPORTED_TYPES;
                            ctx_generated_at := generated_at |}) out)).
  { intros template generated_at out Hin. cbn. repeat split; auto. }
  repeat first
    [ apply always_pbind; [|intros ?]
    | apply always_lift_bind; intros ? ?
    | apply Hcall; intros ?;
      first [ apply Hrender; cbn [In]; tauto | exact I ]
    | exact I
    | match goal with
      | |- always _ (dict_item ?k ?d) =>
          unfold dict_item; destruct (dict_get k d); exact I
      | |- always _ (str_of ?v) => destruct v; exact I
      | |- always _ (lift ?m ?r) => unfold lift; destruct (m r); exact I
      end ].
Qed.

Lemma prefix_shape (module_name : str) :
  (List.length (firstn 3 (to_snake_case module_name)) <= 3)%nat
  /\ Forall snake_char (firstn 3 (to_snake_case module_name))
  /\ (forall rest, firstn 3 (to_snake_case module_name) <> underscore :: rest)
  /\ (firstn 3 (to_snake_case module_name) = []
      <-> to_snake_case module_name = []).
Proof.
  destruct (to_snake_case_props module_name) as (F & H1 & _).
  split; [apply firstn_le_length|]. split; [|split].
  - rewrite <- (firstn_skipn 3 (to_snake_case module_name)) in F.
    apply Forall_app in F. tauto.
  - intros rest E. destruct (to_snake_case module_name) as [|c s];
      [discriminate|].
    cbn [firstn] in E. injection E as -> _. exact (H1 s eq_refl).
  - destruct (to_snake_case module_name); cbn [firstn]; split; auto;
      discriminate.
Qed.

(** X18.  Whatever the outside answers, every rendering asked by
    [generate] is of one of the six templates and receives the module
    name as typed, its slug, its snake-case name, the given fields, the
    whole registry, and for prefix the first three characters of the
    snake-case name: at most three characters of [a-z0-9_], never
    starting with an underscore, and empty only when the snake-case name
    is. *)
Theorem generate_context (w : world) (output_dir : path) (module_name : str)
                         (fields : list Field) (run : Run) :
  Forall (render_event module_name fields)
         (fst (exec w (generate output_dir module_name fields run) []))
  /\ (List.length (firstn 3 (to_snake_case module_name)) <= 3)%nat
  /\ Forall snake_char (firstn 3 (to_snake_case module_name))
  /\ (forall rest, firstn 3 (to_snake_case module_name) <> underscore :: rest)
  /\ (firstn 3 (to_snake_case module_name) = []
      <-> to_snake_case module_name = []).
Proof.
  split; [|apply prefix_shape].
  apply always_exec; [apply always_render | constructor].
Qed.

(** X19.  [generate] undoes nothing.  When the schema cannot be built and
    every call returns, its calls are exactly these six, each of which
    returned: it created the module directory with [parents=True], then
    [acf-json] inside it, read the time, rendered [cpt.php.j2], created
    [includes] and wrote the rendering to the content-type file.  It then
    raises the exception of [build_acf_json] and leaves the directories
    and that file in place, the other six files not being written. *)
Theorem generate_partial_write (w : world) (output_dir : path)
                               (module_name : str) (fields : list Field)
                               (run : Run) (e : exception) :
  answers w ->
  build_acf_json module_name (slugify module_name) fields run = Raise e ->
  snd (exec w (generate output_dir module_name fields run) [])
  = Failed (Raised e)
  /\ written (fst (exec w (generate output_dir module_name fields run) []))
     = [ path_join
           (path_join (path_join output_dir (slugify module_name))
              (lit "includes"))
           (lit "cpt-" ++ slugify module_name ++ lit ".php") ]
  /\ List.length (fst (exec w (generate output_dir module_name fields run) []))
     = 6%nat
  /\ partial_script output_dir module_name fields
       (fst (exec w (generate output_dir module_name fields run) [])).
Proof.
  intros Hw He. unfold partial_script, generate. cbv zeta.
  step Hw. step Hw. step Hw.
  unfold _generate_cpt at 1 2 3 4. cbn [ctx_slug].
  step Hw. step Hw. step Hw.
  unfold _generate_acf_json at 1 2 3 4. cbn [ctx_slug ctx_module_name].
  rewrite ?exec_pbind. unfold lift at 1 2 3 4. rewrite He. cbn [exec].
  cbn [fst snd app written List.length].
  repeat split. eexists. eexists. reflexivity.
Qed.

End TemplateContext.

Lemma generate_partial_write_witness :
  written (fst (exec plain_world
                  (generate [lit "output"] [56448] produit_fields run0) []))
  = [ path_join (path_join (path_join [lit "output"] (slugify [56448]))
                   (lit "includes"))
        (lit "cpt-" ++ slugify [56448] ++ lit ".php") ].
Proof.
  apply (generate_partial_write plain_world [lit "output"] [56448]
           produit_fields run0 (UnicodeEncodeError 56448) plain_world_answers).
  reflexivity.
Defined.
